(** * WordleBot: the candidate filter and the game loop of [WordleBot.py]

    A shallow embedding of [WordleBot._is_word_still_possible],
    [WordleBot.filter_possible_words], [WordleBot.make_guess] and
    [WordleBot.start_game], followed by the properties of the filter
    (duplicate letters, self-exclusion, shrinking, idempotence) and of the
    game loop (error and exhaustion outcomes, the attempt counter).

    Modelling conventions.
    - A Python [str] is a [string] of 8-bit characters; [list(word)] is a
      list of characters in which a consumed slot holds Python's [None],
      hence [list (option ascii)].
    - A Python exception is a value [Raise e] of the type [result]; an early
      [return] inside a [for] loop is the [Return] case of [flow].
    - [self] is the record [WordleBot]; the remote scoring service is a
      function of the guesses submitted so far, and every submission is
      logged, so that "no further guess is submitted" can be stated. *)

From Stdlib Require Import ZArith Lia Ascii String.
From stdpp Require Import base decidable option list strings.

Local Open Scope string_scope.
Local Open Scope list_scope.

(** ** Constants (lines 9-11) *)

Definition WORD_LENGTH : nat := 5.
Definition MAX_ATTEMPTS : Z := 6.
Definition OPTIMAL_FIRST_GUESS : string := "salet".

(** ** Exceptions, results and loop control *)

Inductive exn : Type :=
  | IndexError   (* a subscript [l[i]] with [i] out of range *)
  | ValueError   (* [l.index(x)] when [x] is not in [l] *)
  | TypeError.   (* a subscript of [None] *)

Inductive result (A : Type) : Type :=
  | Ok (a : A)
  | Raise (e : exn).
Arguments Ok {A} a.
Arguments Raise {A} e.

(** What one iteration of a [for] body does to the enclosing function: fall
    through to the next iteration with the loop's variables, or [return]. *)
Inductive flow (S : Type) : Type :=
  | Continue (s : S)
  | Return (b : bool).
Arguments Continue {S} s.
Arguments Return {S} b.

(** The error monad: [x ← r; k] runs [k] unless [r] raised. *)
Global Instance result_ret : MRet result := λ A, Ok.
Global Instance result_bind : MBind result := λ A B k r,
  match r with
  | Ok a => k a
  | Raise e => Raise e
  end.

(** [for i in idx: body], threading the loop's variables. *)
Fixpoint for_each {S : Type} (idx : list nat) (body : nat -> S -> result (flow S))
    (s : S) : result (flow S) :=
  match idx with
  | [] => Ok (Continue s)
  | i :: rest =>
      match body i s with
      | Ok (Continue s') => for_each rest body s'
      | stop => stop
      end
  end.

Definition range (n : nat) : list nat := seq 0 n.

(** ** Python list and string primitives *)

(** [l[i]] for [0 <= i]: the element, or [IndexError]. *)
Definition subscript {A} (l : list A) (i : nat) : result A :=
  match l !! i with
  | Some x => Ok x
  | None => Raise IndexError
  end.

(** [x in l]. *)
Definition contains {A} `{EqDecision A} (x : A) (l : list A) : bool :=
  bool_decide (x ∈ l).

(** [l.index(x)]: the first position holding [x], or [ValueError]. *)
Definition index {A} `{EqDecision A} (l : list A) (x : A) : result nat :=
  match list_find (λ y, y = x) l with
  | Some (k, _) => Ok k
  | None => Raise ValueError
  end.

(** [list(s)], with room for the [None] that marks a consumed letter. *)
Definition chars (s : string) : list (option ascii) :=
  Some <$> list_ascii_of_string s.

(** [s[i]] on a string. *)
Definition char_at (s : string) (i : nat) : result ascii :=
  subscript (list_ascii_of_string s) i.

Definition is_char (a : ascii) (c : string) : bool :=
  bool_decide (String a EmptyString = c).

(** ** [_is_word_still_possible] (lines 95-127) *)

(** Lines 105-110, one iteration of the green pass. *)
Definition green_body (feedback : string) (i : nat)
    (s : list (option ascii) * list (option ascii))
    : result (flow (list (option ascii) * list (option ascii))) :=
  let '(word_chars, guess_chars) := s in
  f ← char_at feedback i;
  if is_char f "G" then
    w ← subscript word_chars i;
    g ← subscript guess_chars i;
    if negb (bool_decide (w = g)) then Ok (Return false)
    else Ok (Continue (<[i := None]> word_chars, <[i := None]> guess_chars))
  else Ok (Continue s).

(** Lines 113-119, one iteration of the yellow pass. *)
Definition yellow_body (feedback : string) (guess_chars : list (option ascii))
    (i : nat) (word_chars : list (option ascii))
    : result (flow (list (option ascii))) :=
  f ← char_at feedback i;
  if is_char f "Y" then
    w ← subscript word_chars i;
    g ← subscript guess_chars i;
    if bool_decide (w = g) then Ok (Return false)
    else if negb (contains g word_chars) then Ok (Return false)
    else
      k ← index word_chars g;
      Ok (Continue (<[k := None]> word_chars))
  else Ok (Continue word_chars).

(** Lines 122-125, one iteration of the grey pass. *)
Definition grey_body (feedback : string) (guess_chars word_chars : list (option ascii))
    (i : nat) (u : unit) : result (flow unit) :=
  f ← char_at feedback i;
  if is_char f "R" then
    g ← subscript guess_chars i;
    if contains g word_chars then Ok (Return false)
    else Ok (Continue u)
  else Ok (Continue u).

(** The feedback is [self.last_feedback], which is [None] when the service's
    answer has no ["feedback"] field; subscripting it then raises. *)
Definition _is_word_still_possible (word guess : string) (feedback : option string)
    : result bool :=
  if bool_decide (word = guess) then Ok false
  else
    let word_chars := chars word in
    let guess_chars := chars guess in
    match feedback with
    | None => Raise TypeError
    | Some feedback =>
        r1 ← for_each (range WORD_LENGTH) (green_body feedback) (word_chars, guess_chars);
        match r1 with
        | Return b => Ok b
        | Continue (word_chars, guess_chars) =>
            r2 ← for_each (range WORD_LENGTH) (yellow_body feedback guess_chars) word_chars;
            match r2 with
            | Return b => Ok b
            | Continue word_chars =>
                r3 ← for_each (range WORD_LENGTH)
                       (grey_body feedback guess_chars word_chars) tt;
                match r3 with
                | Return b => Ok b
                | Continue _ => Ok true
                end
            end
        end
    end.

(** ** The bot (lines 69-78) *)

Inductive status : Type := PLAYING | WON | LOST | ERROR.

Global Instance status_eq_dec : EqDecision status.
Proof. solve_decision. Defined.

(** The fields of [self]; [player_id] only travels to the service and is left
    out. [last_feedback] is [None] when the service's answer carried no
    ["feedback"] field. *)
Record WordleBot : Type := mkBot {
  possible_words : list string;
  current_guess : string;
  attempt_number : Z;
  game_status : status;
  last_feedback : option string
}.

(** [__init__], with the word list that [_load_word_list] read. *)
Definition __init__ (words : list string) : WordleBot :=
  {| possible_words := words;
     current_guess := OPTIMAL_FIRST_GUESS;
     attempt_number := 0;
     game_status := PLAYING;
     last_feedback := Some "" |}.

Definition set_status (st : status) (self : WordleBot) : WordleBot :=
  {| possible_words := possible_words self;
     current_guess := current_guess self;
     attempt_number := attempt_number self;
     game_status := st;
     last_feedback := last_feedback self |}.

Definition set_feedback (fb : option string) (self : WordleBot) : WordleBot :=
  {| possible_words := possible_words self;
     current_guess := current_guess self;
     attempt_number := attempt_number self;
     game_status := game_status self;
     last_feedback := fb |}.

Definition set_words (ws : list string) (self : WordleBot) : WordleBot :=
  {| possible_words := ws;
     current_guess := current_guess self;
     attempt_number := attempt_number self;
     game_status := game_status self;
     last_feedback := last_feedback self |}.

(** Lines 179-180: take the first survivor and count the attempt. *)
Definition next_attempt (w : string) (self : WordleBot) : WordleBot :=
  {| possible_words := possible_words self;
     current_guess := w;
     attempt_number := attempt_number self + 1;
     game_status := game_status self;
     last_feedback := last_feedback self |}.

(** ** [filter_possible_words] (lines 129-135) *)

(** The list comprehension: the words are tested in order and the first
    exception, if any, ends it. *)
Fixpoint keep_possible (words : list string) (guess : string)
    (feedback : option string) : result (list string) :=
  match words with
  | [] => Ok []
  | word :: rest =>
      b ← _is_word_still_possible word guess feedback;
      kept ← keep_possible rest guess feedback;
      Ok (if b : bool then word :: kept else kept)
  end.

Definition filter_possible_words (self : WordleBot) : result WordleBot :=
  kept ← keep_possible (possible_words self) (current_guess self) (last_feedback self);
  Ok (set_words kept self).

(** ** The scoring service (lines 59-66) *)

(** What [WordleAPI.guess] does: raise [WordleAPIError], or return the
    ["feedback"] field of the answer ([None] when there is none). The field is
    taken to be a string when present. *)
Inductive response : Type :=
  | WordleAPIError
  | Feedback (fb : option string).

(** Python's truthiness of [self.last_feedback] and of a string. *)
Definition truthy (fb : option string) : bool :=
  match fb with
  | None => false
  | Some s => negb (bool_decide (s = ""))
  end.

(** [len(self.last_feedback)] is only evaluated on a truthy value. *)
Definition len (fb : option string) : nat :=
  match fb with
  | None => 0
  | Some s => String.length s
  end.

(** ["G" * n]. *)
Fixpoint repeat_G (n : nat) : string :=
  match n with
  | O => ""
  | S n => String "G" (repeat_G n)
  end.

Section Game.

(** The service answers a guess knowing the guesses submitted before it
    (most recent first). *)
Variable api_guess : list string -> string -> response.

(** ** [make_guess] (lines 138-157); the second component is the log of
    submitted guesses. *)
Definition make_guess (self : WordleBot) (calls : list string)
    : WordleBot * list string :=
  if bool_decide (current_guess self = "") then (set_status LOST self, calls)
  else
    match api_guess calls (current_guess self) with
    | WordleAPIError => (set_status ERROR self, current_guess self :: calls)
    | Feedback fb =>
        let self := set_feedback fb self in
        let calls := current_guess self :: calls in
        if negb (truthy fb) || negb (bool_decide (len fb = WORD_LENGTH))
        then (set_status ERROR self, calls)
        else if bool_decide (fb = Some (repeat_G WORD_LENGTH))
        then (set_status WON self, calls)
        else (self, calls)
    end.

(** ** [start_game] (lines 160-185) *)

(** The program points of the loop, named after their lines. *)
Inductive point : Type :=
  | L163   (* the [while] test *)
  | L169   (* after [self.make_guess()] *)
  | L174   (* after [self.filter_possible_words()] *)
  | L182.  (* after the loop *)

Definition config : Type := point * WordleBot * list string.

Definition step (c : config) : result config :=
  let '(pc, self, calls) := c in
  match pc with
  | L163 =>
      if bool_decide (game_status self = PLAYING)
         && bool_decide (attempt_number self < MAX_ATTEMPTS)%Z
      then let '(self, calls) := make_guess self calls in Ok (L169, self, calls)
      else Ok (L182, self, calls)
  | L169 =>
      if negb (bool_decide (game_status self = PLAYING)) then Ok (L182, self, calls)
      else self ← filter_possible_words self; Ok (L174, self, calls)
  | L174 =>
      match possible_words self with
      | [] => Ok (L182, set_status LOST self, calls)
      | w :: _ => Ok (L163, next_attempt w self, calls)
      end
  | L182 => Ok c
  end.

(** Run until the loop is left; [None] only if [fuel] steps were not
    enough. *)
Fixpoint run (fuel : nat) (c : config) : option (result config) :=
  match c with
  | (L182, _, _) => Some (Ok c)
  | _ =>
      match fuel with
      | O => None
      | S fuel =>
          match step c with
          | Ok c' => run fuel c'
          | Raise e => Some (Raise e)
          end
      end
  end.

(** The configurations the loop goes through: [n] steps from [c]. *)
Fixpoint steps (n : nat) (c : config) : result config :=
  match n with
  | O => Ok c
  | S n => c' ← step c; steps n c'
  end.

(** Each round takes three steps and raises the counter; one more step
    leaves the loop. *)
Definition rounds_left (self : WordleBot) : nat :=
  Z.to_nat (MAX_ATTEMPTS - attempt_number self).

Definition start_game (self : WordleBot) (calls : list string)
    : option (result config) :=
  run (3 * rounds_left self + 1) (L163, self, calls).

End Game.

(** ** The reference scoring of a guess against a secret

    Written from the rules of the game: the Green positions are settled
    first; the secret's letters at the other positions form the pool; going
    left to right, a guess letter found in the pool is Yellow and takes one
    copy out of it, and any other letter is Grey. *)

(** The secret's letters at the positions that are not Green. *)
Fixpoint unmatched (secret guess : list ascii) : list ascii :=
  match secret, guess with
  | s :: secret, g :: guess =>
      if bool_decide (s = g) then unmatched secret guess
      else s :: unmatched secret guess
  | _, _ => []
  end.

(** Take one copy of [x] out of the pool. *)
Fixpoint take_one (x : ascii) (pool : list ascii) : list ascii :=
  match pool with
  | [] => []
  | y :: pool => if bool_decide (y = x) then pool else y :: take_one x pool
  end.

Fixpoint assign (secret guess pool : list ascii) : list ascii :=
  match secret, guess with
  | s :: secret, g :: guess =>
      if bool_decide (s = g) then "G"%char :: assign secret guess pool
      else if bool_decide (g ∈ pool)
           then "Y"%char :: assign secret guess (take_one g pool)
           else "R"%char :: assign secret guess pool
  | _, _ => []
  end.

Definition reference_score (secret guess : string) : string :=
  let secret := list_ascii_of_string secret in
  let guess := list_ascii_of_string guess in
  string_of_list_ascii (assign secret guess (unmatched secret guess)).

(** ** Invariants and measures used in the proofs *)

(** The shape of a pass's outcome: no exception, a [return] only of [False],
    and [Inv] on the variables if the loop ran to its end. *)
Definition completes {S} (Inv : S -> Prop) (r : result (flow S)) : Prop :=
  match r with
  | Ok (Continue s) => Inv s
  | Ok (Return b) => b = false
  | Raise _ => False
  end.

(** The character lists that the green pass leaves when the Green positions
    are exactly the matching ones. *)
Definition green_word (secret guess : list ascii) : list (option ascii) :=
  zip_with (λ s g, if bool_decide (s = g) then None else Some s) secret guess.

Definition green_guess (secret guess : list ascii) : list (option ascii) :=
  zip_with (λ s g, if bool_decide (s = g) then None else Some g) secret guess.

(** The pool that [assign] ends with. *)
Fixpoint final_pool (secret guess pool : list ascii) : list ascii :=
  match secret, guess with
  | s :: secret, g :: guess =>
      if bool_decide (s = g) then final_pool secret guess pool
      else if bool_decide (g ∈ pool) then final_pool secret guess (take_one g pool)
           else final_pool secret guess pool
  | _, _ => pool
  end.

(** No remaining letter of the word faces the same letter of the guess: the
    test of line 115 fails on every slot. *)
Definition no_match (word_chars guess_chars : list (option ascii)) : Prop :=
  forall j c, word_chars !! j = Some (Some c) -> guess_chars !! j <> Some (Some c).

(** Both character lists still have [n] slots. *)
Definition both_long (n : nat) (s : list (option ascii) * list (option ascii)) : Prop :=
  n <= length s.1 /\ n <= length s.2.

(** Between the loop test and the increment the counter is below the
    maximum. *)
Definition counter_ok (c : config) : Prop :=
  let '(pc, self, _) := c in
  (0 <= attempt_number self <= MAX_ATTEMPTS)%Z /\
  (pc = L169 \/ pc = L174 -> attempt_number self < MAX_ATTEMPTS)%Z.

(** Steps that are enough to leave the loop from a configuration. *)
Definition fuel_needed (c : config) : nat :=
  let '(pc, self, _) := c in
  match pc with
  | L163 => 3 * rounds_left self + 1
  | L169 => 3 * rounds_left (next_attempt "" self) + 3
  | L174 => 3 * rounds_left (next_attempt "" self) + 2
  | L182 => 0
  end.

(** ** Inputs for the concrete runs *)

(** The bot after a first round in which no letter of "salet" was found. *)
Definition round_one : WordleBot :=
  {| possible_words := ["salet"; "crane"; "dumbo"; "pucks"; "humid"];
     current_guess := "salet";
     attempt_number := 0;
     game_status := PLAYING;
     last_feedback := Some "RRRRR" |}.

(** A service that finds no letter of any guess in its secret. *)
Definition all_grey (calls : list string) (guess : string) : response :=
  Feedback (Some "RRRRR").

(** A service that answers with four symbols. *)
Definition four_symbols (calls : list string) (guess : string) : response :=
  Feedback (Some "RRRR").

Definition word_list : list string := ["salet"; "crane"; "dumbo"; "pucks"; "humid"].

(** ** The loop, transition by transition

    The moves of [step], one constructor for each path through lines
    163-180 and through [make_guess]. *)

Section Transitions.

Variable api_guess : list string -> string -> response.

Inductive transition : config -> config -> Prop :=
  | t_exit self calls :
      ~ (game_status self = PLAYING /\ (attempt_number self < MAX_ATTEMPTS)%Z) ->
      transition (L163, self, calls) (L182, self, calls)
  | t_no_guess self calls :
      game_status self = PLAYING -> (attempt_number self < MAX_ATTEMPTS)%Z ->
      current_guess self = "" ->
      transition (L163, self, calls) (L169, set_status LOST self, calls)
  | t_api_error self calls :
      game_status self = PLAYING -> (attempt_number self < MAX_ATTEMPTS)%Z ->
      current_guess self <> "" ->
      api_guess calls (current_guess self) = WordleAPIError ->
      transition (L163, self, calls)
        (L169, set_status ERROR self, current_guess self :: calls)
  | t_malformed self calls fb :
      game_status self = PLAYING -> (attempt_number self < MAX_ATTEMPTS)%Z ->
      current_guess self <> "" ->
      api_guess calls (current_guess self) = Feedback fb ->
      fb = None \/ (exists s, fb = Some s /\ String.length s <> WORD_LENGTH) ->
      transition (L163, self, calls)
        (L169, set_status ERROR (set_feedback fb self), current_guess self :: calls)
  | t_won self calls :
      game_status self = PLAYING -> (attempt_number self < MAX_ATTEMPTS)%Z ->
      current_guess self <> "" ->
      api_guess calls (current_guess self) = Feedback (Some "GGGGG") ->
      transition (L163, self, calls)
        (L169, set_status WON (set_feedback (Some "GGGGG") self),
         current_guess self :: calls)
  | t_feedback self calls fb :
      game_status self = PLAYING -> (attempt_number self < MAX_ATTEMPTS)%Z ->
      current_guess self <> "" ->
      api_guess calls (current_guess self) = Feedback (Some fb) ->
      String.length fb = WORD_LENGTH -> fb <> "GGGGG" ->
      transition (L163, self, calls)
        (L169, set_feedback (Some fb) self, current_guess self :: calls)
  | t_stop self calls :
      game_status self <> PLAYING ->
      transition (L169, self, calls) (L182, self, calls)
  | t_filter self calls kept :
      game_status self = PLAYING ->
      keep_possible (possible_words self) (current_guess self) (last_feedback self)
      = Ok kept ->
      transition (L169, self, calls) (L174, set_words kept self, calls)
  | t_stumped self calls :
      possible_words self = [] ->
      transition (L174, self, calls) (L182, set_status LOST self, calls)
  | t_next self calls w ws :
      possible_words self = w :: ws ->
      transition (L174, self, calls) (L163, next_attempt w self, calls)
  | t_done self calls :
      transition (L182, self, calls) (L182, self, calls).

(** At line 169 a bot that is still playing holds the feedback that the
    service has just given for its guess: five symbols, not all Green. *)
Definition fresh_feedback (c : config) : Prop :=
  let '(pc, self, calls) := c in
  pc = L169 -> game_status self = PLAYING ->
  exists rest fb,
    calls = current_guess self :: rest /\
    api_guess rest (current_guess self) = Feedback (Some fb) /\
    last_feedback self = Some fb /\
    String.length fb = WORD_LENGTH /\ fb <> "GGGGG".

End Transitions.

(** Words, guess and submitted guesses all come from the word list (or are
    the first guess). *)
Definition provenance (words : list string) (c : config) : Prop :=
  let '(_, self, calls) := c in
  possible_words self `sublist_of` words /\
  (current_guess self = OPTIMAL_FIRST_GUESS \/ current_guess self ∈ words) /\
  Forall (λ g, g = OPTIMAL_FIRST_GUESS \/ g ∈ words) calls.

(** The log of submitted guesses against the attempt counter, at each
    program point. *)
Definition budget (c : config) : Prop :=
  let '(pc, self, calls) := c in
  let n := Z.of_nat (length calls) in
  let a := attempt_number self in
  match pc with
  | L163 => n = a /\ (0 <= a <= MAX_ATTEMPTS)%Z
  | L169 => (n <= a + 1)%Z /\ (game_status self = PLAYING -> n = (a + 1)%Z) /\
            (0 <= a < MAX_ATTEMPTS)%Z
  | L174 => n = (a + 1)%Z /\ (0 <= a < MAX_ATTEMPTS)%Z
  | L182 => (n <= MAX_ATTEMPTS)%Z /\
            (game_status self = PLAYING -> a = MAX_ATTEMPTS /\ n = MAX_ATTEMPTS)
  end.

(** No word was submitted twice, and a submitted word is no candidate any
    more (at line 169, the guess just submitted may still be one). *)
Definition no_repeat (c : config) : Prop :=
  let '(pc, self, calls) := c in
  NoDup calls /\
  match pc with
  | L163 => (current_guess self ∉ calls) /\
            forall h, h ∈ calls -> h ∉ possible_words self
  | L169 => forall h, h ∈ calls -> h ∈ possible_words self -> h = current_guess self
  | L174 => forall h, h ∈ calls -> h ∉ possible_words self
  | L182 => True
  end.



(** What each status says about the last exchange with the service. *)
Definition status_explained (api_guess : list string -> string -> response)
    (c : config) : Prop :=
  let '(pc, self, calls) := c in
  (pc = L163 \/ pc = L174 -> game_status self = PLAYING) /\
  match game_status self with
  | PLAYING => True
  | WON =>
      exists rest, calls = current_guess self :: rest /\
        api_guess rest (current_guess self) = Feedback (Some "GGGGG") /\
        last_feedback self = Some "GGGGG"
  | ERROR =>
      exists rest, calls = current_guess self :: rest /\
        (api_guess rest (current_guess self) = WordleAPIError \/
         exists fb, api_guess rest (current_guess self) = Feedback fb /\
           (fb = None \/ exists s, fb = Some s /\ String.length s <> WORD_LENGTH))
  | LOST => possible_words self = [] \/ current_guess self = ""
  end.

(** A service that scores every guess all Green. *)
Definition all_green (calls : list string) (guess : string) : response :=
  Feedback (Some "GGGGG").

(** A service whose five symbols are none of G, Y and R. *)
Definition unknown_symbols (calls : list string) (guess : string) : response :=
  Feedback (Some "XXXXX").

(** A service that is down. *)
Definition unreachable (calls : list string) (guess : string) : response :=
  WordleAPIError.

Definition long_list : list string :=
  ["salet"; "crane"; "dumbo"; "pucks"; "humid"; "fjord"; "nymph"; "waltz"].

(** How a pass stops early: it returns [False] or raises [IndexError]. *)
Definition rejection {S} (r : result (flow S)) : Prop :=
  r = Ok (Return false) \/ r = Raise IndexError.

(** The remaining letters of the word are letters of the word, at their
    own positions. *)
Definition from_word (word : string) (wc : list (option ascii)) : Prop :=
  forall j x, wc !! j = Some (Some x) -> char_at word j = Ok x.

(** Equality of results is decidable, so that "the check returns [True]" can
    be a filter predicate. *)
Global Instance exn_eq_dec : EqDecision exn.
Proof. solve_decision. Defined.

Global Instance result_eq_dec {A} `{EqDecision A} : EqDecision (result A).
Proof. solve_decision. Defined.

(** With a service that scores against [secret]: the secret is still a
    candidate as long as the game is being played, and the game is won only
    on the secret. *)
Definition on_track (secret : string) (c : config) : Prop :=
  let '(pc, self, _) := c in
  match pc with
  | L163 | L174 => game_status self = PLAYING /\ secret ∈ possible_words self
  | L169 =>
      (game_status self = WON /\ current_guess self = secret) \/
      (game_status self = PLAYING /\ secret ∈ possible_words self /\
       secret <> current_guess self /\
       last_feedback self = Some (reference_score secret (current_guess self)))
  | L182 =>
      (game_status self = WON /\ current_guess self = secret) \/
      (game_status self = PLAYING /\ secret ∈ possible_words self)
  end.

(** ** [_load_word_list] (lines 80-93)

    [str.strip] and [str.lower] are parameters; the file is the list of its
    lines, or [None] when opening it raises [FileNotFoundError]. *)

Section LoadWordList.

Variables strip lower : string -> string.

Definition _load_word_list (file : option (list string)) : list string :=
  match file with
  | Some lines =>
      (λ word, lower (strip word))
        <$> filter (λ word, String.length (strip word) = WORD_LENGTH) lines
  | None => []
  end.

End LoadWordList.

(** The two builtins on ASCII text, for the concrete run. *)
Definition is_space (a : ascii) : bool :=
  let n := nat_of_ascii a in
  ((n =? 32) || ((9 <=? n) && (n <=? 13)) || ((28 <=? n) && (n <=? 31)))%nat.

Fixpoint drop_spaces (l : list ascii) : list ascii :=
  match l with
  | a :: rest => if is_space a then drop_spaces rest else l
  | [] => []
  end.

Definition ascii_strip (s : string) : string :=
  string_of_list_ascii
    (reverse (drop_spaces (reverse (drop_spaces (list_ascii_of_string s))))).

Definition lower_char (a : ascii) : ascii :=
  let n := nat_of_ascii a in
  if ((65 <=? n) && (n <=? 90))%nat then ascii_of_nat (n + 32) else a.

Fixpoint ascii_lower (s : string) : string :=
  match s with
  | EmptyString => EmptyString
  | String a s => String (lower_char a) (ascii_lower s)
  end.

Definition word_file : list string :=
  ["Salet" ++ String "010" ""; " crane " ++ String "010" ""; "toolong"; ""; "dumbo"]%string.

(** A service that scores every guess against the secret "humid". *)
Definition scores_humid (calls : list string) (guess : string) : response :=
  Feedback (Some (reference_score "humid" guess)).

(** * Properties *)

(** ** Loops and primitives *)


Lemma for_each_completes {S} (Inv : S -> Prop) idx body (s : S) :
  Inv s ->
  (forall i s, i ∈ idx -> Inv s -> completes Inv (body i s)) ->
  completes Inv (for_each idx body s).
Proof.
  revert s. induction idx as [|i idx IH]; intros s Hs Hbody; simpl; [done|].
  pose proof (Hbody i s ltac:(left) Hs) as Hi.
  destruct (body i s) as [[s'|b]|e]; simpl in *; try done.
  apply IH; [done|]. intros j t Hj. apply Hbody. by right.
Qed.

Lemma elem_of_range i n : i ∈ range n <-> i < n.
Proof. unfold range. rewrite elem_of_seq. lia. Qed.

Lemma subscript_lt {A} (l : list A) i :
  i < length l -> exists x, subscript l i = Ok x /\ l !! i = Some x.
Proof.
  intros [x Hx]%lookup_lt_is_Some_2. exists x. unfold subscript. by rewrite Hx.
Qed.

Lemma length_chars s : length (chars s) = String.length s.
Proof.
  unfold chars. rewrite length_fmap.
  induction s as [|a s IH]; simpl; [done | by rewrite IH].
Qed.

Lemma length_list_ascii s : length (list_ascii_of_string s) = String.length s.
Proof. induction s as [|a s IH]; simpl; [done | by rewrite IH]. Qed.

Lemma char_at_lt s i :
  i < String.length s -> exists a, char_at s i = Ok a.
Proof.
  intros Hi. unfold char_at.
  destruct (subscript_lt (list_ascii_of_string s) i) as (a & Ha & _).
  - by rewrite length_list_ascii.
  - by exists a.
Qed.

(** The membership test of line 117 is what makes [index] of line 119
    succeed. *)
Lemma index_of_contained {A} `{EqDecision A} (l : list A) (x : A) :
  contains x l = true ->
  exists k, index l x = Ok k /\ l !! k = Some x.
Proof.
  unfold contains, index. intros Hin%bool_decide_eq_true.
  destruct (list_find_elem_of (λ y, y = x) l x Hin eq_refl) as [[k y] Hk].
  rewrite Hk. exists k. split; [done|].
  apply list_find_Some in Hk as (Hk & -> & _). done.
Qed.

Lemma index_ValueError {A} `{EqDecision A} (l : list A) (x : A) e :
  index l x = Raise e -> contains x l = false.
Proof.
  unfold index, contains. destruct (list_find _ l) as [[k y]|] eqn:Hf; [done|].
  intros _. apply bool_decide_eq_false. intros Hin.
  destruct (list_find_elem_of (λ y, y = x) l x Hin eq_refl) as [? Hk]. congruence.
Qed.

(** ** The three passes raise nothing on long enough inputs *)

Section Passes.

Variable feedback : string.
Variable n : nat.
Hypothesis feedback_long : n <= String.length feedback.


Lemma green_body_completes i s :
  i ∈ range n -> both_long n s -> completes (both_long n) (green_body feedback i s).
Proof.
  intros Hi%elem_of_range [Hw Hg]. destruct s as [wc gc]; simpl in *.
  unfold green_body.
  destruct (char_at_lt feedback i) as [f ->]; [lia|]. simpl.
  destruct (is_char f "G"); simpl; [|done].
  destruct (subscript_lt wc i) as (w & -> & _); [lia|].
  destruct (subscript_lt gc i) as (g & -> & _); [lia|]. simpl.
  destruct (bool_decide (w = g)); simpl; [|done].
  split; simpl; rewrite length_insert; done.
Qed.

Lemma yellow_body_completes gc i wc :
  n <= length gc -> i ∈ range n -> n <= length wc ->
  completes (λ wc, n <= length wc) (yellow_body feedback gc i wc).
Proof.
  intros Hg Hi%elem_of_range Hw. unfold yellow_body.
  destruct (char_at_lt feedback i) as [f ->]; [lia|]. simpl.
  destruct (is_char f "Y"); simpl; [|done].
  destruct (subscript_lt wc i) as (w & -> & _); [lia|].
  destruct (subscript_lt gc i) as (g & -> & _); [lia|]. simpl.
  destruct (bool_decide (w = g)); simpl; [done|].
  destruct (contains g wc) eqn:Hin; simpl; [|done].
  destruct (index_of_contained wc g Hin) as (k & -> & _). simpl.
  by rewrite length_insert.
Qed.

Lemma grey_body_completes gc wc i u :
  n <= length gc -> i ∈ range n ->
  completes (λ _, True) (grey_body feedback gc wc i u).
Proof.
  intros Hg Hi%elem_of_range. unfold grey_body.
  destruct (char_at_lt feedback i) as [f ->]; [lia|]. simpl.
  destruct (is_char f "R"); simpl; [|done].
  destruct (subscript_lt gc i) as (g & -> & _); [lia|]. simpl.
  by destruct (contains g wc).
Qed.

End Passes.

(** Whatever the state of the yellow pass, line 119 cannot raise. *)
Lemma yellow_body_no_ValueError feedback gc i wc :
  yellow_body feedback gc i wc <> Raise ValueError.
Proof.
  unfold yellow_body.
  destruct (char_at feedback i) as [f|e] eqn:Hf; simpl.
  2:{ unfold char_at, subscript in Hf. destruct (_ !! i); congruence. }
  destruct (is_char f "Y"); simpl; [|done].
  destruct (subscript wc i) as [w|e] eqn:Hw; simpl.
  2:{ unfold subscript in Hw. destruct (_ !! i); congruence. }
  destruct (subscript gc i) as [g|e] eqn:Hg; simpl.
  2:{ unfold subscript in Hg. destruct (_ !! i); congruence. }
  destruct (bool_decide (w = g)); simpl; [done|].
  destruct (contains g wc) eqn:Hin; simpl; [|done].
  destruct (index_of_contained wc g Hin) as (k & -> & _). done.
Qed.

Lemma is_word_still_possible_total_ge word guess feedback :
  WORD_LENGTH <= String.length word ->
  WORD_LENGTH <= String.length guess ->
  WORD_LENGTH <= String.length feedback ->
  exists b, _is_word_still_possible word guess (Some feedback) = Ok b.
Proof.
  intros Hw Hg Hf. unfold _is_word_still_possible.
  destruct (bool_decide (word = guess)); [by eexists|].
  assert (H1 : completes (both_long WORD_LENGTH)
    (for_each (range WORD_LENGTH) (green_body feedback) (chars word, chars guess))).
  { apply for_each_completes.
    - split; cbn [fst snd]; by rewrite length_chars.
    - intros. by apply (green_body_completes feedback WORD_LENGTH). }
  destruct (for_each _ (green_body feedback) _) as [[[wc gc]|b]|e];
    cbn [mbind result_bind completes] in *; [|by eexists|done].
  destruct H1 as [Hwc Hgc]; cbn [fst snd] in *.
  assert (H2 : completes (λ wc, WORD_LENGTH <= length wc)
    (for_each (range WORD_LENGTH) (yellow_body feedback gc) wc)).
  { apply for_each_completes; [done|]. intros. by apply (yellow_body_completes feedback WORD_LENGTH). }
  destruct (for_each _ (yellow_body feedback gc) _) as [[wc'|b]|e];
    cbn [mbind result_bind completes] in *; [|by eexists|done].
  assert (H3 : completes (λ _, True)
    (for_each (range WORD_LENGTH) (grey_body feedback gc wc') tt)).
  { apply for_each_completes; [done|]. intros. by apply (grey_body_completes feedback WORD_LENGTH). }
  destruct (for_each _ (grey_body feedback gc wc') _) as [[u|b]|e];
    cbn [mbind result_bind completes] in *; [by eexists|by eexists|done].
Qed.

(** ** The consistency check *)

(** C10: on words, guesses and feedback of length 5 the check returns a
    boolean: no subscript is out of range, and at line 119 the guess letter is
    always found in what is left of the word, because line 117 returned
    otherwise; the yellow pass cannot raise [ValueError] from any state. *)
Theorem is_word_still_possible_total (word guess feedback : string) :
  String.length word = WORD_LENGTH ->
  String.length guess = WORD_LENGTH ->
  String.length feedback = WORD_LENGTH ->
  (exists b, _is_word_still_possible word guess (Some feedback) = Ok b) /\
  (forall i gc wc, yellow_body feedback gc i wc <> Raise ValueError).
Proof.
  intros Hw Hg Hf. split.
  - apply is_word_still_possible_total_ge; lia.
  - intros. apply yellow_body_no_ValueError.
Qed.

Lemma is_word_still_possible_total_witness :
  (exists b, _is_word_still_possible "allow" "llama" (Some "YYYRR") = Ok b) /\
  (forall i gc wc, yellow_body "YYYRR" gc i wc <> Raise ValueError).
Proof.
  apply (is_word_still_possible_total "allow" "llama" "YYYRR"); reflexivity.
Defined.

(** C3: the word that was just played is rejected, whatever the feedback
    (also a missing or a short one: the test of line 98 comes first). *)
Theorem self_exclusion (guess : string) (feedback : option string) :
  _is_word_still_possible guess guess feedback = Ok false.
Proof.
  unfold _is_word_still_possible. by rewrite bool_decide_eq_true_2.
Qed.

(** C8: with the secret "steal" and the guess "steel", the letter e is Green
    at position 2 and Grey at position 3, and the word is kept: its only e
    was consumed by the green pass. *)
Theorem green_and_grey_same_letter :
  exists (word guess feedback : string) (i j : nat) (c : ascii),
    String.length word = 5 /\ String.length guess = 5 /\
    String.length feedback = 5 /\
    i <> j /\
    char_at guess i = Ok c /\ char_at guess j = Ok c /\
    char_at feedback i = Ok "G"%char /\ char_at feedback j = Ok "R"%char /\
    _is_word_still_possible word guess (Some feedback) = Ok true.
Proof.
  exists "steal", "steel", "GGGRG", 2, 3, "e"%char.
  repeat split; (done || vm_compute; reflexivity).
Qed.

(** C1, at the failing input: the candidate "allow" is kept for the guess
    "llama" with feedback YYYRR, although "llama" scored against the secret
    "allow" gives YGYRR (YYYRR is what the secret "atoll" gives). The same
    happens with a Grey: "elbow" is kept for YRRRR, and scores RGRRR. *)
Theorem keeps_word_with_other_score :
  (String.length "allow" = WORD_LENGTH /\ String.length "llama" = WORD_LENGTH /\
   String.length "YYYRR" = WORD_LENGTH /\ "allow" <> "llama") /\
  _is_word_still_possible "allow" "llama" (Some "YYYRR") = Ok true /\
  reference_score "allow" "llama" = "YGYRR" /\
  reference_score "allow" "llama" <> "YYYRR" /\
  reference_score "atoll" "llama" = "YYYRR" /\
  _is_word_still_possible "elbow" "llama" (Some "YRRRR") = Ok true /\
  reference_score "elbow" "llama" = "RGRRR".
Proof. repeat split; (done || vm_compute; reflexivity). Qed.

(** C2, at the failing input: position 1 is Yellow and holds the letter l in
    both "allow" and "llama", yet the word is kept: the Yellow at position 0
    has already consumed slot 1 of the word when line 115 looks at it. *)
Theorem yellow_on_matching_position_kept :
  char_at "YYYRR" 1 = Ok "Y"%char /\
  char_at "allow" 1 = char_at "llama" 1 /\
  "allow" <> "llama" /\
  _is_word_still_possible "allow" "llama" (Some "YYYRR") = Ok true.
Proof. repeat split; (done || vm_compute; reflexivity). Qed.

(** ** A word is kept for its own score

    The converse of what fails in C1: the feedback that the reference scoring
    gives for a secret never makes the check reject that secret. *)

Lemma list_insert_middle {A} (l1 l2 : list A) x y k :
  length l1 = k -> <[k := y]> (l1 ++ x :: l2) = l1 ++ y :: l2.
Proof. intros <-. by rewrite insert_app_r_alt, Nat.sub_diag by lia. Qed.

Lemma snoc_app {A} (l r : list A) x : l ++ x :: r = (l ++ [x]) ++ r.
Proof. by rewrite <- app_assoc. Qed.

Lemma snoc_length {A} (l : list A) x : length (l ++ [x]) = S (length l).
Proof. rewrite length_app. simpl. lia. Qed.

Lemma char_at_middle feedback pre f rest :
  list_ascii_of_string feedback = pre ++ f :: rest ->
  char_at feedback (length pre) = Ok f.
Proof.
  intros Hfb. unfold char_at, subscript. by rewrite Hfb, list_lookup_middle.
Qed.

Lemma subscript_middle {A} (pre rest : list A) x k :
  length pre = k -> subscript (pre ++ x :: rest) k = Ok x.
Proof. intros <-. unfold subscript. by rewrite list_lookup_middle. Qed.

Lemma take_one_elem x y pool : x ∈ take_one y pool -> x ∈ pool.
Proof.
  induction pool as [|z pool IH]; cbn [take_one]; [done|].
  case_bool_decide; [by right|].
  intros [->|Hx]%elem_of_cons; [by left | right; auto].
Qed.

Lemma final_pool_elem x secret guess pool :
  x ∈ final_pool secret guess pool -> x ∈ pool.
Proof.
  revert guess pool. induction secret as [|s secret IH]; intros [|g guess] pool;
    cbn [final_pool]; try done.
  repeat case_bool_decide; eauto using take_one_elem.
Qed.

Lemma elem_of_remaining (b : ascii) (wc : list (option ascii)) :
  Some b ∈ wc <-> b ∈ omap id wc.
Proof.
  rewrite list_elem_of_omap. split.
  - intros Hin. by exists (Some b).
  - intros (c & Hin & Hc). by rewrite <- Hc.
Qed.

(** Line 119 takes the first copy of the letter out of what remains. *)
Lemma remaining_after_consume (wc : list (option ascii)) b k :
  index wc (Some b) = Ok k ->
  omap id (<[k := None]> wc) = take_one b (omap id wc).
Proof.
  unfold index. revert k. induction wc as [|c wc IH]; intros k; [done|].
  cbn [list_find]. case_decide as Hc.
  - intros [= <-]. subst c. cbn. by rewrite bool_decide_eq_true_2.
  - destruct (list_find _ wc) as [[k' y]|] eqn:Hfind; cbn; [|done].
    intros [= <-]. cbn. destruct c as [a|]; cbn.
    + rewrite bool_decide_eq_false_2 by congruence. f_equal. by apply IH.
    + by apply IH.
Qed.

Lemma no_match_consume wc gc k : no_match wc gc -> no_match (<[k := None]> wc) gc.
Proof.
  intros Hm j c [(_ & Heq & _)|(_ & Hj)]%list_lookup_insert_Some; [done|].
  by apply Hm.
Qed.

Lemma no_match_green secret guess : no_match (green_word secret guess) (green_guess secret guess).
Proof.
  unfold no_match, green_word, green_guess.
  revert guess. induction secret as [|s secret IH]; intros [|g guess] j c; try done.
  destruct j as [|j]; cbn.
  - case_bool_decide; congruence.
  - apply IH.
Qed.

Lemma remaining_green secret guess :
  omap id (green_word secret guess) = unmatched secret guess.
Proof.
  unfold green_word. revert guess.
  induction secret as [|s secret IH]; intros [|g guess]; try done.
  cbn. case_bool_decide; cbn; by rewrite IH.
Qed.

Lemma length_assign secret guess pool :
  length secret = length guess -> length (assign secret guess pool) = length secret.
Proof.
  revert guess pool. induction secret as [|s secret IH]; intros [|g guess] pool;
    cbn [assign length]; try done.
  intros [= Hlen]. repeat case_bool_decide; cbn [length]; by rewrite IH.
Qed.

Lemma length_green_word secret guess :
  length secret = length guess -> length (green_word secret guess) = length secret.
Proof. intros. unfold green_word. by rewrite length_zip_with_l_eq. Qed.

(** A Grey position of the score holds a guess letter that is in the pool
    neither then nor at the end. *)
Lemma assign_grey secret guess pool k :
  length secret = length guess ->
  assign secret guess pool !! k = Some "R"%char ->
  exists b, green_guess secret guess !! k = Some (Some b) /\
            b ∉ final_pool secret guess pool.
Proof.
  revert guess pool k. induction secret as [|s secret IH]; intros [|g guess] pool k;
    cbn [assign final_pool length]; try done.
  intros [= Hlen]. unfold green_guess. cbn [zip_with].
  destruct k as [|k]; cbn [lookup list_lookup].
  - repeat case_bool_decide; try done. intros _. exists g. split; [done|].
    intros Hin%final_pool_elem. done.
  - repeat case_bool_decide; intros Hk; by apply IH.
Qed.

Lemma is_char_true f c : is_char f c = true -> String f EmptyString = c.
Proof. unfold is_char. by intros ?%bool_decide_eq_true. Qed.

(** The green pass on the score of [secret]: positions [length pre_fb]
    onwards, the earlier ones being done. *)
Lemma green_loop secret guess pool feedback pre_fb pre_wc pre_gc :
  length secret = length guess ->
  length pre_wc = length pre_fb ->
  length pre_gc = length pre_fb ->
  list_ascii_of_string feedback = pre_fb ++ assign secret guess pool ->
  for_each (seq (length pre_fb) (length secret)) (green_body feedback)
    (pre_wc ++ (Some <$> secret), pre_gc ++ (Some <$> guess))
  = Ok (Continue (pre_wc ++ green_word secret guess, pre_gc ++ green_guess secret guess)).
Proof.
  revert guess pool pre_fb pre_wc pre_gc.
  induction secret as [|s secret IH]; intros [|g guess] pool pre_fb pre_wc pre_gc;
    try done.
  intros [= Hlen] Hwc Hgc Hfb. cbn [length seq for_each assign] in *.
  unfold green_body at 1, green_word, green_guess. cbn [fmap list_fmap zip_with].
  fold (green_word secret guess) (green_guess secret guess).
  case_bool_decide as Hsg.
  - subst g. rewrite (char_at_middle _ _ _ _ Hfb). cbn [mbind result_bind].
    replace (is_char "G" "G") with true by done.
    rewrite (subscript_middle pre_wc _ _ _ Hwc). cbn [mbind result_bind].
    rewrite (subscript_middle pre_gc _ _ _ Hgc). cbn [mbind result_bind].
    rewrite bool_decide_eq_true_2 by done. cbn [negb].
    rewrite (list_insert_middle pre_wc _ _ _ _ Hwc).
    rewrite (list_insert_middle pre_gc _ _ _ _ Hgc).
    rewrite (snoc_app pre_wc (Some <$> secret)), (snoc_app pre_wc (green_word _ _)).
    rewrite (snoc_app pre_gc (Some <$> guess)), (snoc_app pre_gc (green_guess _ _)).
    rewrite <- (snoc_length pre_fb "G"%char).
    apply (IH guess pool); rewrite ?snoc_length; try congruence.
    by rewrite <- snoc_app.
  - assert (exists f, is_char f "G" = false /\ exists pool',
      list_ascii_of_string feedback = pre_fb ++ f :: assign secret guess pool')
      as (f & Hf & pool' & Hfb').
    { case_bool_decide; [exists "Y"%char | exists "R"%char]; split; try done; eauto. }
    rewrite (char_at_middle _ _ _ _ Hfb'). cbn [mbind result_bind]. rewrite Hf.
    rewrite (snoc_app pre_wc (Some <$> secret)), (snoc_app pre_wc (green_word _ _)).
    rewrite (snoc_app pre_gc (Some <$> guess)), (snoc_app pre_gc (green_guess _ _)).
    rewrite <- (snoc_length pre_fb f).
    apply (IH guess pool'); rewrite ?snoc_length; try congruence.
    by rewrite <- snoc_app.
Qed.

(** The yellow pass on the score of [secret]: what remains of the word is
    the pool of the reference scoring. *)
Lemma yellow_loop secret guess pool feedback pre_fb pre_gc gc wc :
  length secret = length guess ->
  length pre_gc = length pre_fb ->
  list_ascii_of_string feedback = pre_fb ++ assign secret guess pool ->
  gc = pre_gc ++ green_guess secret guess ->
  length wc = length pre_fb + length secret ->
  no_match wc gc ->
  omap id wc = pool ->
  exists wc',
    for_each (seq (length pre_fb) (length secret)) (yellow_body feedback gc) wc
    = Ok (Continue wc') /\
    omap id wc' = final_pool secret guess pool.
Proof.
  revert guess pool pre_fb pre_gc wc.
  induction secret as [|s secret IH]; intros [|g guess] pool pre_fb pre_gc wc;
    try done.
  { intros _ _ _ _ _ _ Hpool. by exists wc. }
  intros [= Hlen] Hgc Hfb -> Hwc Hm Hpool.
  cbn [length seq for_each assign final_pool] in *.
  unfold yellow_body at 1.
  assert (Hnext : forall f, length (pre_gc ++ [f]) = length (pre_fb ++ ["G"%char])).
  { intros. rewrite !snoc_length. congruence. }
  case_bool_decide as Hsg; [|case_bool_decide as Hin].
  - rewrite (char_at_middle _ _ _ _ Hfb). cbn [mbind result_bind].
    replace (is_char "G" "Y") with false by done.
    rewrite <- (snoc_length pre_fb "G"%char).
    apply (IH guess pool _ (pre_gc ++ [None])); rewrite ?snoc_length; try done.
    + congruence.
    + by rewrite <- snoc_app.
    + unfold green_guess. cbn [zip_with]. rewrite bool_decide_eq_true_2 by done.
      by rewrite <- snoc_app.
    + lia.
  - rewrite (char_at_middle _ _ _ _ Hfb). cbn [mbind result_bind].
    replace (is_char "Y" "Y") with true by done.
    destruct (subscript_lt wc (length pre_fb)) as (c & -> & Hc); [lia|].
    cbn [mbind result_bind].
    assert (Hg : (pre_gc ++ green_guess (s :: secret) (g :: guess)) !! length pre_fb
                 = Some (Some g)).
    { unfold green_guess. cbn [zip_with]. rewrite bool_decide_eq_false_2 by done.
      rewrite <- Hgc. apply list_lookup_middle. done. }
    unfold subscript at 1. rewrite Hg. cbn [mbind result_bind].
    rewrite bool_decide_eq_false_2.
    2:{ intros ->. by apply (Hm _ _ Hc). }
    assert (Hcontains : contains (Some g) wc = true).
    { apply bool_decide_eq_true. apply elem_of_remaining. by rewrite Hpool. }
    rewrite Hcontains. cbn [negb].
    destruct (index_of_contained wc (Some g) Hcontains) as (k & Hk & _).
    rewrite Hk. cbn [mbind result_bind].
    rewrite <- (snoc_length pre_fb "Y"%char).
    apply (IH guess (take_one g pool) _ (pre_gc ++ [Some g])); rewrite ?snoc_length;
      try done.
    + congruence.
    + by rewrite <- snoc_app.
    + unfold green_guess. cbn [zip_with]. rewrite bool_decide_eq_false_2 by done.
      by rewrite <- snoc_app.
    + rewrite length_insert. lia.
    + by apply no_match_consume.
    + rewrite <- Hpool. by apply remaining_after_consume.
  - rewrite (char_at_middle _ _ _ _ Hfb). cbn [mbind result_bind].
    replace (is_char "R" "Y") with false by done.
    rewrite <- (snoc_length pre_fb "R"%char).
    apply (IH guess pool _ (pre_gc ++ [Some g])); rewrite ?snoc_length; try done.
    + congruence.
    + by rewrite <- snoc_app.
    + unfold green_guess. cbn [zip_with]. rewrite bool_decide_eq_false_2 by done.
      by rewrite <- snoc_app.
    + lia.
Qed.

Lemma grey_loop feedback gc wc idx :
  (forall i, i ∈ idx -> grey_body feedback gc wc i tt = Ok (Continue tt)) ->
  for_each idx (grey_body feedback gc wc) tt = Ok (Continue tt).
Proof.
  induction idx as [|i idx IH]; intros Hbody; cbn [for_each]; [done|].
  rewrite Hbody by left. apply IH. intros j Hj. apply Hbody. by right.
Qed.

(** What the reference scoring answers for a secret never rejects it. *)
Lemma secret_is_kept (word guess : string) :
  String.length word = WORD_LENGTH ->
  String.length guess = WORD_LENGTH ->
  word <> guess ->
  _is_word_still_possible word guess (Some (reference_score word guess)) = Ok true.
Proof.
  intros Hw Hg Hne. unfold _is_word_still_possible.
  rewrite bool_decide_eq_false_2 by done.
  unfold reference_score, chars, range.
  set (w := list_ascii_of_string word). set (g := list_ascii_of_string guess).
  assert (Hlw : length w = WORD_LENGTH) by (unfold w; by rewrite length_list_ascii).
  assert (Hlg : length g = WORD_LENGTH) by (unfold g; by rewrite length_list_ascii).
  set (feedback := string_of_list_ascii (assign w g (unmatched w g))).
  assert (Hfb : list_ascii_of_string feedback = [] ++ assign w g (unmatched w g)).
  { unfold feedback. by rewrite list_ascii_of_string_of_list_ascii. }
  rewrite <- Hlw.
  pose proof (green_loop w g (unmatched w g) feedback [] [] []
    ltac:(congruence) eq_refl eq_refl Hfb) as Hgreen.
  cbn [length app] in Hgreen. rewrite Hgreen. cbn [mbind result_bind].
  destruct (yellow_loop w g (unmatched w g) feedback [] [] (green_guess w g)
    (green_word w g)) as (wc' & Hyellow & Hpool); try done.
  { congruence. }
  { cbn [length]. rewrite length_green_word; [lia | congruence]. }
  { apply no_match_green. }
  { apply remaining_green. }
  cbn [length] in Hyellow. rewrite Hyellow. cbn [mbind result_bind].
  rewrite grey_loop; [done|].
  intros i Hi%elem_of_seq. unfold grey_body.
  destruct (char_at feedback i) as [f|e] eqn:Hf.
  2:{ destruct (char_at_lt feedback i) as [f' Hf'].
      - rewrite <- length_list_ascii, Hfb. cbn [app].
        rewrite length_assign by congruence. lia.
      - congruence. }
  cbn [mbind result_bind]. destruct (is_char f "R") eqn:HR; [|done].
  apply is_char_true in HR. injection HR as ->.
  unfold char_at, subscript in Hf. rewrite Hfb in Hf. cbn [app] in Hf.
  destruct (assign w g (unmatched w g) !! i) as [f|] eqn:Hi'; [|done].
  injection Hf as ->.
  destruct (assign_grey w g (unmatched w g) i ltac:(congruence) Hi') as (b & Hb & Hnot).
  unfold subscript. rewrite Hb. cbn [mbind result_bind].
  unfold contains. rewrite bool_decide_eq_false_2; [done|].
  rewrite elem_of_remaining, Hpool. done.
Qed.

(** ** A Yellow on a matching position

    Line 115 does reject a word that matches the guess at a Yellow position,
    as long as no earlier Yellow position of the guess carries the same
    letter (which is what lets line 119 consume the slot first). *)

Lemma for_each_app {S} idx1 idx2 body (s : S) :
  for_each (idx1 ++ idx2) body s
  = match for_each idx1 body s with
    | Ok (Continue s') => for_each idx2 body s'
    | stop => stop
    end.
Proof.
  revert s. induction idx1 as [|i idx1 IH]; intros s; cbn [for_each app]; [done|].
  by destruct (body i s) as [[s'|b]|e].
Qed.

Lemma char_at_chars s i a : char_at s i = Ok a <-> chars s !! i = Some (Some a).
Proof.
  unfold char_at, subscript, chars. rewrite list_lookup_fmap.
  destruct (list_ascii_of_string s !! i); cbn; split; congruence.
Qed.

Lemma char_at_length s i a : char_at s i = Ok a -> i < String.length s.
Proof.
  unfold char_at, subscript. destruct (_ !! i) eqn:Hi; [|done]. intros _.
  rewrite <- length_list_ascii. by eapply lookup_lt_Some.
Qed.

Section YellowOnMatch.

Variables (word guess feedback : string) (i : nat) (c : ascii).
Hypothesis word_long : WORD_LENGTH <= String.length word.
Hypothesis guess_long : WORD_LENGTH <= String.length guess.
Hypothesis feedback_long : WORD_LENGTH <= String.length feedback.
Hypothesis in_range : i < WORD_LENGTH.
Hypothesis yellow_i : char_at feedback i = Ok "Y"%char.
Hypothesis word_i : char_at word i = Ok c.
Hypothesis guess_i : char_at guess i = Ok c.
Hypothesis first_yellow :
  forall j, j < i -> char_at feedback j = Ok "Y"%char -> char_at guess j <> Ok c.

Lemma green_keeps_slot s :
  let Inv := λ s : list (option ascii) * list (option ascii),
    both_long WORD_LENGTH s /\
    s.1 !! i = Some (Some c) /\ s.2 !! i = Some (Some c) /\
    forall j, s.2 !! j = Some None \/ s.2 !! j = chars guess !! j in
  Inv s -> forall j, j ∈ range WORD_LENGTH -> completes Inv (green_body feedback j s).
Proof.
  intros Inv (Hlong & Hw & Hg & Hgc) j Hj.
  pose proof (green_body_completes feedback WORD_LENGTH feedback_long j s Hj Hlong) as Hc.
  destruct s as [wc gc]. unfold green_body in *.
  destruct (char_at feedback j) as [f|] eqn:Hf; cbn [mbind result_bind] in *; [|done].
  destruct (is_char f "G") eqn:HG; [|done].
  destruct (subscript wc j) as [w|]; cbn [mbind result_bind] in *; [|done].
  destruct (subscript gc j) as [g|]; cbn [mbind result_bind] in *; [|done].
  destruct (negb _); [done|]. cbn [completes] in *.
  assert (j <> i) as Hji.
  { intros ->. apply is_char_true in HG. congruence. }
  split; [done|]. cbn [fst snd] in *.
  rewrite !list_lookup_insert_ne by done. split; [done|]. split; [done|].
  intros j'. destruct (decide (j = j')) as [<-|Hne].
  - left. apply list_lookup_insert_eq. apply elem_of_range in Hj. destruct Hlong. simpl in *. lia.
  - rewrite list_lookup_insert_ne by done. apply Hgc.
Qed.

Lemma yellow_keeps_slot gc wc :
  let Inv := λ wc : list (option ascii),
    WORD_LENGTH <= length wc /\ wc !! i = Some (Some c) in
  WORD_LENGTH <= length gc ->
  (forall j, gc !! j = Some None \/ gc !! j = chars guess !! j) ->
  Inv wc -> forall j, j ∈ seq 0 i -> completes Inv (yellow_body feedback gc j wc).
Proof.
  intros Inv Hlong Hgc [Hlen Hw] j Hj%elem_of_seq.
  pose proof (yellow_body_completes feedback WORD_LENGTH feedback_long gc j wc Hlong
    ltac:(apply elem_of_range; lia) Hlen) as Hc.
  unfold yellow_body in *.
  destruct (char_at feedback j) as [f|] eqn:Hf; cbn [mbind result_bind] in *; [|done].
  destruct (is_char f "Y") eqn:HY; [|done].
  apply is_char_true in HY. injection HY as ->.
  destruct (subscript wc j) as [w|]; cbn [mbind result_bind] in *; [|done].
  destruct (subscript gc j) as [g|] eqn:Hg; cbn [mbind result_bind] in *; [|done].
  destruct (bool_decide (w = g)); [done|].
  destruct (contains g wc) eqn:Hin; cbn [negb] in *; [|done].
  destruct (index_of_contained wc g Hin) as (k & Hk & Hwk). rewrite Hk in *.
  cbn [mbind result_bind completes] in *. split; [done|].
  rewrite list_lookup_insert_ne; [done|]. intros ->.
  assert (g = Some c) as -> by congruence.
  unfold subscript in Hg. destruct (gc !! j) as [x|] eqn:Hx; [|done].
  injection Hg as ->. destruct (Hgc j) as [Hnone|Hsome]; [congruence|].
  apply (first_yellow j); [lia | done |]. apply char_at_chars. congruence.
Qed.

Lemma yellow_rejects_at gc wc rest :
  wc !! i = Some (Some c) -> gc !! i = Some (Some c) ->
  for_each (i :: rest) (yellow_body feedback gc) wc = Ok (Return false).
Proof.
  intros Hw Hg. cbn [for_each]. unfold yellow_body. rewrite yellow_i.
  cbn [mbind result_bind]. replace (is_char "Y" "Y") with true by done.
  unfold subscript. rewrite Hw, Hg. cbn [mbind result_bind].
  by rewrite bool_decide_eq_true_2.
Qed.

(** X22: a word that has the guess letter at a Yellow position is rejected,
    provided that no earlier Yellow position of the guess carries that
    letter. *)
Lemma yellow_match_rejected :
  _is_word_still_possible word guess (Some feedback) = Ok false.
Proof.
  unfold _is_word_still_possible. case_bool_decide; [done|].
  set (Inv1 := λ s : list (option ascii) * list (option ascii),
    both_long WORD_LENGTH s /\
    s.1 !! i = Some (Some c) /\ s.2 !! i = Some (Some c) /\
    forall j, s.2 !! j = Some None \/ s.2 !! j = chars guess !! j).
  assert (H1 : completes Inv1
    (for_each (range WORD_LENGTH) (green_body feedback) (chars word, chars guess))).
  { apply for_each_completes.
    - split; [|split; [|split]]; cbn [fst snd].
      + split; cbn [fst snd]; by rewrite length_chars.
      + by apply char_at_chars.
      + by apply char_at_chars.
      + by right.
    - intros j s Hj Hs. by apply green_keeps_slot. }
  destruct (for_each _ (green_body feedback) _) as [[[wc gc]|b]|e];
    cbn [mbind result_bind completes] in *; [|by subst|done].
  destruct H1 as ([Hlw Hlg] & Hw & Hg & Hgc); cbn [fst snd] in *.
  replace (range WORD_LENGTH) with (seq 0 i ++ i :: seq (S i) (WORD_LENGTH - S i)).
  2:{ unfold range. change (i :: seq (S i) (WORD_LENGTH - S i))
        with (seq (0 + i) (S (WORD_LENGTH - S i))).
      rewrite <- seq_app. f_equal. lia. }
  rewrite for_each_app.
  set (Inv2 := λ wc : list (option ascii),
    WORD_LENGTH <= length wc /\ wc !! i = Some (Some c)).
  assert (H2 : completes Inv2 (for_each (seq 0 i) (yellow_body feedback gc) wc)).
  { apply for_each_completes; [done|].
    intros j s Hj Hs. by apply yellow_keeps_slot. }
  destruct (for_each (seq 0 i) _ _) as [[wc'|b]|e];
    cbn [mbind result_bind completes] in *; [|by subst|done].
  destruct H2 as [_ Hw']. by rewrite yellow_rejects_at.
Qed.

End YellowOnMatch.

(** ** The filter *)

Lemma keep_possible_cons word rest guess feedback kept :
  keep_possible (word :: rest) guess feedback = Ok kept ->
  exists b kept',
    _is_word_still_possible word guess feedback = Ok b /\
    keep_possible rest guess feedback = Ok kept' /\
    kept = if b then word :: kept' else kept'.
Proof.
  cbn [keep_possible].
  destruct (_is_word_still_possible word guess feedback) as [b|e];
    cbn [mbind result_bind]; [|done].
  destruct (keep_possible rest guess feedback) as [kept'|e];
    cbn [mbind result_bind]; [|done].
  intros [= <-]. by exists b, kept'.
Qed.

Lemma keep_possible_sublist words guess feedback kept :
  keep_possible words guess feedback = Ok kept -> kept `sublist_of` words.
Proof.
  revert kept. induction words as [|word rest IH]; intros kept.
  - intros [= <-]. constructor.
  - intros (b & kept' & _ & Hrest & ->)%keep_possible_cons.
    specialize (IH _ Hrest). destruct b; by constructor.
Qed.

Lemma keep_possible_kept words guess feedback kept :
  keep_possible words guess feedback = Ok kept ->
  Forall (λ w, _is_word_still_possible w guess feedback = Ok true) kept.
Proof.
  revert kept. induction words as [|word rest IH]; intros kept.
  - intros [= <-]. constructor.
  - intros (b & kept' & Hb & Hrest & ->)%keep_possible_cons.
    specialize (IH _ Hrest). destruct b; [by constructor | done].
Qed.

Lemma keep_possible_all words guess feedback :
  Forall (λ w, _is_word_still_possible w guess feedback = Ok true) words ->
  keep_possible words guess feedback = Ok words.
Proof.
  induction 1 as [|word rest Hw _ IH]; [done|].
  cbn [keep_possible]. rewrite Hw, IH. done.
Qed.

(** X23: the word that was played is not among the words that the filter
    keeps, whatever the feedback. *)
Lemma guess_not_kept self self' :
  filter_possible_words self = Ok self' ->
  current_guess self ∉ possible_words self'.
Proof.
  unfold filter_possible_words.
  destruct (keep_possible _ _ _) as [kept|e] eqn:Hk; cbn [mbind result_bind]; [|done].
  intros [= <-]. cbn [possible_words set_words].
  apply keep_possible_kept in Hk. intros Hin.
  rewrite Forall_forall in Hk. specialize (Hk _ Hin).
  unfold _is_word_still_possible in Hk.
  by rewrite bool_decide_eq_true_2 in Hk.
Qed.

(** The filter returns when the words, the guess and the feedback have five
    characters or more. *)
Lemma filter_possible_words_returns self feedback :
  Forall (λ w, WORD_LENGTH <= String.length w) (possible_words self) ->
  WORD_LENGTH <= String.length (current_guess self) ->
  last_feedback self = Some feedback ->
  WORD_LENGTH <= String.length feedback ->
  exists self', filter_possible_words self = Ok self'.
Proof.
  intros Hws Hg Hfb Hf. unfold filter_possible_words. rewrite Hfb.
  assert (exists kept, keep_possible (possible_words self) (current_guess self)
                         (Some feedback) = Ok kept) as [kept ->].
  { induction Hws as [|w ws Hw _ [kept IH]]; [by eexists|].
    cbn [keep_possible].
    destruct (is_word_still_possible_total_ge w (current_guess self) feedback)
      as [b ->]; try done.
    rewrite IH. by eexists. }
  by eexists.
Qed.

(** C4: the words that [filter_possible_words] leaves in [possible_words] are
    a subsequence of the words that were there, so there are no more of them. *)
Theorem filter_possible_words_shrinks (self self' : WordleBot) :
  filter_possible_words self = Ok self' ->
  possible_words self' `sublist_of` possible_words self /\
  length (possible_words self') <= length (possible_words self).
Proof.
  unfold filter_possible_words.
  destruct (keep_possible _ _ _) as [kept|e] eqn:Hk; cbn [mbind result_bind]; [|done].
  intros [= <-]. cbn [possible_words set_words].
  apply keep_possible_sublist in Hk. split; [done|]. by apply sublist_length.
Qed.


Lemma filter_possible_words_shrinks_witness :
  possible_words (set_words ["dumbo"; "humid"] round_one)
    `sublist_of` possible_words round_one /\
  length (possible_words (set_words ["dumbo"; "humid"] round_one))
    <= length (possible_words round_one).
Proof.
  apply (filter_possible_words_shrinks round_one). vm_compute. reflexivity.
Defined.

(** C5: filtering what a filter has left, with the same guess and feedback,
    changes nothing. *)
Theorem filter_possible_words_idempotent (self self' : WordleBot) :
  filter_possible_words self = Ok self' ->
  filter_possible_words self' = Ok self'.
Proof.
  unfold filter_possible_words.
  destruct (keep_possible _ _ _) as [kept|e] eqn:Hk; cbn [mbind result_bind]; [|done].
  intros [= <-]. cbn [possible_words current_guess last_feedback set_words].
  apply keep_possible_kept in Hk. rewrite (keep_possible_all _ _ _ Hk).
  done.
Qed.

Lemma filter_possible_words_idempotent_witness :
  filter_possible_words (set_words ["dumbo"; "humid"] round_one)
  = Ok (set_words ["dumbo"; "humid"] round_one).
Proof.
  apply (filter_possible_words_idempotent round_one). vm_compute. reflexivity.
Defined.

(** ** The game loop *)

Section Loop.

Variable api_guess : list string -> string -> response.

Lemma make_guess_attempt_number self calls :
  attempt_number (make_guess api_guess self calls).1 = attempt_number self.
Proof.
  unfold make_guess. destruct (bool_decide (current_guess self = "")); [done|].
  destruct (api_guess calls (current_guess self)) as [|fb]; [done|].
  cbn zeta. destruct (negb (truthy fb) || _); [done|].
  by destruct (bool_decide (fb = _)).
Qed.

Lemma filter_possible_words_attempt_number self self' :
  filter_possible_words self = Ok self' ->
  attempt_number self' = attempt_number self.
Proof.
  unfold filter_possible_words.
  destruct (keep_possible _ _ _); cbn [mbind result_bind]; [|done].
  by intros [= <-].
Qed.

(** The counter starts at 0 (line 76). *)
Lemma init_attempt_number words : attempt_number (__init__ words) = 0%Z.
Proof. done. Qed.

(** A step leaves the counter alone, except the step from line 174 back to
    the loop test, which adds one (line 180). *)
Lemma step_attempt_number pc self calls pc' self' calls' :
  step api_guess (pc, self, calls) = Ok (pc', self', calls') ->
  attempt_number self' = attempt_number self \/
  (pc = L174 /\ pc' = L163 /\ attempt_number self' = (attempt_number self + 1)%Z).
Proof.
  destruct pc; cbn [step].
  - destruct (_ && _).
    + pose proof (make_guess_attempt_number self calls) as Ha.
      destruct (make_guess api_guess self calls) as [s c]. intros [= <- <- <-]. by left.
    + intros [= <- <- <-]. by left.
  - destruct (negb _).
    + intros [= <- <- <-]. by left.
    + destruct (filter_possible_words self) as [s|e] eqn:Hf;
        cbn [mbind result_bind]; [|done].
      intros [= <- <- <-]. left. by eapply filter_possible_words_attempt_number.
  - destruct (possible_words self) as [|w ws].
    + intros [= <- <- <-]. by left.
    + intros [= <- <- <-]. right. done.
  - intros [= <- <- <-]. by left.
Qed.


Lemma step_counter_ok c c' :
  counter_ok c -> step api_guess c = Ok c' -> counter_ok c'.
Proof.
  destruct c as [[pc self] calls], c' as [[pc' self'] calls'].
  intros [Hb Hlt] Hstep. pose proof Hstep as Ha%step_attempt_number.
  destruct pc; cbn [step] in Hstep.
  - destruct (bool_decide (game_status self = PLAYING)); cbn [andb] in Hstep.
    + case_bool_decide as Hguard.
      * destruct (make_guess api_guess self calls) as [s c].
        injection Hstep as <- <- <-. unfold counter_ok. intuition (lia || congruence).
      * injection Hstep as <- <- <-. unfold counter_ok. intuition (lia || congruence).
    + injection Hstep as <- <- <-. unfold counter_ok. intuition (lia || congruence).
  - destruct (negb _).
    + injection Hstep as <- <- <-. unfold counter_ok. intuition (lia || congruence).
    + destruct (filter_possible_words self); cbn [mbind result_bind] in Hstep; [|done].
      injection Hstep as <- <- <-. unfold counter_ok. intuition (lia || congruence).
  - destruct (possible_words self).
    + injection Hstep as <- <- <-. unfold counter_ok. intuition (lia || congruence).
    + injection Hstep as <- <- <-. unfold counter_ok.
      destruct Ha as [Ha|(_ & _ & Ha)]; intuition (lia || congruence).
  - injection Hstep as <- <- <-. unfold counter_ok. intuition (lia || congruence).
Qed.

Lemma steps_counter_ok n c c' :
  counter_ok c -> steps api_guess n c = Ok c' -> counter_ok c'.
Proof.
  revert c. induction n as [|n IH]; intros c Hc; cbn [steps].
  - by intros [= <-].
  - destruct (step api_guess c) as [c1|e] eqn:Hs; cbn [mbind result_bind]; [|done].
    apply IH. by eapply step_counter_ok.
Qed.

(** C9: in every configuration that the loop reaches from a fresh bot, at
    the loop test, inside a round or after the loop, the attempt counter is
    between 0 and [MAX_ATTEMPTS]. *)
Theorem attempt_number_bounded (words : list string) (n : nat)
    (pc : point) (self : WordleBot) (calls : list string) :
  steps api_guess n (L163, __init__ words, []) = Ok (pc, self, calls) ->
  (0 <= attempt_number self <= MAX_ATTEMPTS)%Z.
Proof.
  intros Hn. eapply (steps_counter_ok n _ (pc, self, calls)) in Hn.
  - apply Hn.
  - unfold counter_ok, __init__, MAX_ATTEMPTS. cbn. split; [lia|]. intros; lia.
Qed.

(** *** Leaving the loop *)

Lemma run_L182 fuel self calls :
  run api_guess fuel (L182, self, calls) = Some (Ok (L182, self, calls)).
Proof. by destruct fuel. Qed.

(** Line 182 is final: nothing moves there, and nothing is submitted. *)
Lemma step_L182 self calls :
  step api_guess (L182, self, calls) = Ok (L182, self, calls).
Proof. done. Qed.

(** The service is called by [make_guess] alone, at most once. *)
Lemma step_calls pc self calls pc' self' calls' :
  step api_guess (pc, self, calls) = Ok (pc', self', calls') ->
  calls' = calls \/ (pc = L163 /\ calls' = current_guess self :: calls).
Proof.
  destruct pc; cbn [step].
  - destruct (_ && _); [|intros [= <- <- <-]; by left].
    unfold make_guess. destruct (bool_decide (current_guess self = "")).
    { intros [= <- <- <-]; by left. }
    destruct (api_guess calls (current_guess self)) as [|fb].
    { intros [= <- <- <-]; by right. }
    cbn zeta. destruct (negb (truthy fb) || _).
    { intros [= <- <- <-]; by right. }
    destruct (bool_decide (fb = _)); intros [= <- <- <-]; by right.
  - destruct (negb _); [intros [= <- <- <-]; by left|].
    destruct (filter_possible_words self); cbn [mbind result_bind]; [|done].
    intros [= <- <- <-]; by left.
  - destruct (possible_words self); intros [= <- <- <-]; by left.
  - intros [= <- <- <-]; by left.
Qed.

Lemma make_guess_malformed self calls fb :
  current_guess self <> "" ->
  api_guess calls (current_guess self) = Feedback fb ->
  fb = None \/ (exists s, fb = Some s /\ String.length s <> WORD_LENGTH) ->
  make_guess api_guess self calls
  = (set_status ERROR (set_feedback fb self), current_guess self :: calls).
Proof.
  intros Hg Hapi Hfb. unfold make_guess.
  rewrite bool_decide_eq_false_2 by done. rewrite Hapi. cbn zeta.
  destruct Hfb as [->|(s & -> & Hlen)]; [done|].
  cbn [len]. rewrite (bool_decide_eq_false_2 (String.length s = WORD_LENGTH)) by done.
  by rewrite orb_true_r.
Qed.

Lemma repeat_G_5 : repeat_G WORD_LENGTH = "GGGGG".
Proof. done. Qed.

Lemma make_guess_wellformed self calls fb :
  current_guess self <> "" ->
  api_guess calls (current_guess self) = Feedback (Some fb) ->
  String.length fb = WORD_LENGTH ->
  fb <> "GGGGG" ->
  make_guess api_guess self calls
  = (set_feedback (Some fb) self, current_guess self :: calls).
Proof.
  intros Hg Hapi Hlen Hwin. unfold make_guess.
  rewrite bool_decide_eq_false_2 by done. rewrite Hapi. cbn zeta.
  cbn [len truthy]. rewrite (bool_decide_eq_true_2 _ Hlen).
  rewrite (bool_decide_eq_false_2 (fb = "")).
  2:{ intros ->. done. }
  cbn [negb orb]. rewrite bool_decide_eq_false_2; [done|].
  rewrite repeat_G_5. congruence.
Qed.

Lemma rounds_left_pos self :
  (attempt_number self < MAX_ATTEMPTS)%Z ->
  exists r, rounds_left self = S r.
Proof.
  intros Ha. unfold rounds_left.
  exists (Z.to_nat (MAX_ATTEMPTS - attempt_number self - 1)). lia.
Qed.

Lemma loop_test_passes self calls fuel :
  game_status self = PLAYING ->
  (attempt_number self < MAX_ATTEMPTS)%Z ->
  run api_guess (S fuel) (L163, self, calls)
  = run api_guess fuel
      (L169, (make_guess api_guess self calls).1, (make_guess api_guess self calls).2).
Proof.
  intros Hs Ha. cbn [run step].
  rewrite (bool_decide_eq_true_2 _ Hs), (bool_decide_eq_true_2 _ Ha). cbn [andb].
  by destruct (make_guess api_guess self calls).
Qed.

(** C6: when the answer to the current guess has no feedback (none, or an
    empty one) or one whose length is not [WORD_LENGTH], the loop is left
    with the status [ERROR], and the guess just made is the last one
    submitted: the log has grown by that guess only. *)
Theorem malformed_feedback_stops_with_error (self : WordleBot)
    (calls : list string) (fb : option string) :
  game_status self = PLAYING ->
  (attempt_number self < MAX_ATTEMPTS)%Z ->
  current_guess self <> "" ->
  api_guess calls (current_guess self) = Feedback fb ->
  fb = None \/ (exists s, fb = Some s /\ String.length s <> WORD_LENGTH) ->
  exists self',
    start_game api_guess self calls
    = Some (Ok (L182, self', current_guess self :: calls)) /\
    game_status self' = ERROR.
Proof.
  intros Hs Ha Hg Hapi Hfb. exists (set_status ERROR (set_feedback fb self)).
  split; [|done]. unfold start_game.
  destruct (rounds_left_pos self Ha) as [r ->].
  replace (3 * S r + 1) with (S (S (3 * r + 2))) by lia.
  rewrite loop_test_passes by done.
  rewrite (make_guess_malformed self calls fb) by done. cbn [fst snd].
  cbn [run step game_status set_status]. cbn.
  apply run_L182.
Qed.

(** C7: when the feedback is well formed and not all Green, and the filter
    leaves no word, the loop is left with the status [LOST], which is not
    [ERROR]. *)
Theorem no_candidate_left_is_lost (self : WordleBot) (calls : list string)
    (fb : string) (filtered : WordleBot) :
  game_status self = PLAYING ->
  (attempt_number self < MAX_ATTEMPTS)%Z ->
  current_guess self <> "" ->
  api_guess calls (current_guess self) = Feedback (Some fb) ->
  String.length fb = WORD_LENGTH ->
  fb <> "GGGGG" ->
  filter_possible_words (set_feedback (Some fb) self) = Ok filtered ->
  possible_words filtered = [] ->
  exists self',
    start_game api_guess self calls
    = Some (Ok (L182, self', current_guess self :: calls)) /\
    game_status self' = LOST /\ game_status self' <> ERROR.
Proof.
  intros Hs Ha Hg Hapi Hlen Hwin Hfilter Hempty.
  exists (set_status LOST filtered). split; [|done]. unfold start_game.
  destruct (rounds_left_pos self Ha) as [r ->].
  replace (3 * S r + 1) with (S (S (S (3 * r + 1)))) by lia.
  rewrite loop_test_passes by done.
  rewrite (make_guess_wellformed self calls fb) by done. cbn [fst snd].
  cbn [run step game_status set_feedback]. rewrite Hs.
  rewrite bool_decide_eq_true_2 by done. cbn [negb].
  fold (set_feedback (Some fb) self). rewrite Hfilter. cbn [mbind result_bind].
  cbn [run step]. rewrite Hempty. apply run_L182.
Qed.

(** *** The loop ends *)


Lemma rounds_left_next w self :
  (attempt_number self < MAX_ATTEMPTS)%Z ->
  rounds_left self = S (rounds_left (next_attempt w self)).
Proof. unfold rounds_left, next_attempt. cbn [attempt_number]. lia. Qed.

Lemma rounds_left_attempt self self' :
  attempt_number self' = attempt_number self -> rounds_left self' = rounds_left self.
Proof. unfold rounds_left. by intros ->. Qed.

Lemma run_enough fuel c :
  fuel_needed c <= fuel -> is_Some (run api_guess fuel c).
Proof.
  revert c. induction fuel as [|fuel IH]; intros [[pc self] calls] Hfuel.
  { destruct pc; cbn [fuel_needed] in Hfuel; try lia. by eexists. }
  destruct pc; cbn [fuel_needed] in Hfuel; cbn [run step].
  - destruct (bool_decide (game_status self = PLAYING)); cbn [andb].
    2:{ rewrite run_L182. by eexists. }
    case_bool_decide as Ha.
    2:{ rewrite run_L182. by eexists. }
    pose proof (make_guess_attempt_number self calls) as Hmg.
    destruct (make_guess api_guess self calls) as [s c]. cbn [fst] in Hmg.
    apply IH. cbn [fuel_needed].
    rewrite (rounds_left_next "" self Ha) in Hfuel.
    rewrite (rounds_left_attempt (next_attempt "" self) (next_attempt "" s)).
    + lia.
    + cbn [next_attempt attempt_number]. by rewrite Hmg.
  - destruct (negb _).
    { rewrite run_L182. by eexists. }
    destruct (filter_possible_words self) as [s|e] eqn:Hf; cbn [mbind result_bind].
    2:{ by eexists. }
    apply IH. cbn [fuel_needed].
    rewrite (rounds_left_attempt (next_attempt "" self) (next_attempt "" s)).
    + lia.
    + cbn [next_attempt attempt_number].
      by rewrite (filter_possible_words_attempt_number _ _ Hf).
  - destruct (possible_words self) as [|w ws].
    { rewrite run_L182. by eexists. }
    apply IH. cbn [fuel_needed].
    rewrite (rounds_left_attempt (next_attempt "" self) (next_attempt w self)); [lia|done].
  - by eexists.
Qed.

(** [start_game] returns: its fuel is never the reason to stop. *)
Lemma start_game_terminates self calls :
  is_Some (start_game api_guess self calls).
Proof. apply run_enough. done. Qed.

(** What [run] returns was reached by [steps], and is at line 182. *)
Lemma run_steps fuel c c' :
  run api_guess fuel c = Some (Ok c') ->
  c'.1.1 = L182 /\ exists n, steps api_guess n c = Ok c'.
Proof.
  revert c. induction fuel as [|fuel IH]; intros [[pc self] calls].
  { destruct pc; cbn [run]; try done. intros [= <-]. split; [done|]. by exists 0. }
  destruct pc; cbn [run].
  4:{ intros [= <-]. split; [done|]. by exists 0. }
  all: destruct (step api_guess _) as [c1|e] eqn:Hstep; [|done].
  all: intros [Hpc [n Hn]]%IH; split; [done|].
  all: exists (S n); cbn [steps]; rewrite Hstep; done.
Qed.

(** The bot that [start_game] returns has its counter within bounds. *)
Lemma start_game_attempt_number words pc self calls :
  start_game api_guess (__init__ words) [] = Some (Ok (pc, self, calls)) ->
  (0 <= attempt_number self <= MAX_ATTEMPTS)%Z.
Proof.
  intros [_ [n Hn]]%run_steps.
  eapply (steps_counter_ok n _ (pc, self, calls)) in Hn; [apply Hn|].
  unfold counter_ok, __init__, MAX_ATTEMPTS. cbn. split; [lia|]. intros; lia.
Qed.

End Loop.

(** *** Concrete runs *)


Lemma attempt_number_bounded_witness :
  (0 <= attempt_number (next_attempt "dumbo" (set_words ["dumbo"; "humid"] round_one))
     <= MAX_ATTEMPTS)%Z.
Proof.
  apply (attempt_number_bounded all_grey word_list 3 L163 _ ["salet"]).
  vm_compute. reflexivity.
Defined.

Lemma malformed_feedback_stops_with_error_witness :
  exists self',
    start_game four_symbols (__init__ word_list) []
    = Some (Ok (L182, self', current_guess (__init__ word_list) :: [])) /\
    game_status self' = ERROR.
Proof.
  apply (malformed_feedback_stops_with_error four_symbols (__init__ word_list) [] (Some "RRRR")).
  - reflexivity.
  - reflexivity.
  - discriminate.
  - reflexivity.
  - right. exists "RRRR". split; [reflexivity | discriminate].
Defined.

Lemma no_candidate_left_is_lost_witness :
  exists self',
    start_game all_grey (__init__ ["salet"; "crane"]) []
    = Some (Ok (L182, self', current_guess (__init__ ["salet"; "crane"]) :: [])) /\
    game_status self' = LOST /\ game_status self' <> ERROR.
Proof.
  apply (no_candidate_left_is_lost all_grey (__init__ ["salet"; "crane"]) [] "RRRRR"
           (set_words [] (set_feedback (Some "RRRRR") (__init__ ["salet"; "crane"])))).
  - reflexivity.
  - reflexivity.
  - discriminate.
  - reflexivity.
  - reflexivity.
  - discriminate.
  - vm_compute. reflexivity.
  - reflexivity.
Defined.

(** * Further properties of the game loop *)

Section Moves.

Variable api_guess : list string -> string -> response.

(** What the test of line 147 lets through. *)
Lemma feedback_check_true fb :
  negb (truthy fb) || negb (bool_decide (len fb = WORD_LENGTH)) = true ->
  fb = None \/ (exists s, fb = Some s /\ String.length s <> WORD_LENGTH).
Proof.
  destruct fb as [s|]; [|by left]. cbn [truthy len]. right. exists s. split; [done|].
  case_bool_decide as Hempty; [by subst|]. cbn [negb orb] in *.
  by case_bool_decide.
Qed.

Lemma feedback_check_false fb :
  negb (truthy fb) || negb (bool_decide (len fb = WORD_LENGTH)) = false ->
  exists s, fb = Some s /\ String.length s = WORD_LENGTH.
Proof.
  destruct fb as [s|]; [|done]. cbn [truthy len]. exists s. split; [done|].
  destruct (negb (negb _)); [done|]. cbn [orb] in *. by case_bool_decide.
Qed.

(** Every step is one of the transitions. *)
Lemma step_transition c c' : step api_guess c = Ok c' -> transition api_guess c c'.
Proof.
  destruct c as [[pc self] calls]. destruct pc; cbn [step].
  - case_bool_decide as Hs; cbn [andb]; [case_bool_decide as Ha|].
    + unfold make_guess. case_bool_decide as Hg.
      { intros [= <-]. by apply t_no_guess. }
      destruct (api_guess calls (current_guess self)) as [|fb] eqn:Hapi.
      { intros [= <-]. by apply t_api_error. }
      cbn zeta.
      destruct (negb (truthy fb) || _) eqn:Hcheck.
      { intros [= <-]. apply t_malformed; try done. by apply feedback_check_true. }
      apply feedback_check_false in Hcheck as (s & -> & Hlen).
      case_bool_decide as Hwin.
      * injection Hwin as ->. intros [= <-]. by apply t_won.
      * intros [= <-]. apply t_feedback; try done. intros ->. by apply Hwin.
    + intros [= <-]. apply t_exit. tauto.
    + intros [= <-]. apply t_exit. tauto.
  - case_bool_decide as Hs; cbn [negb].
    + unfold filter_possible_words.
      destruct (keep_possible _ _ _) as [kept|e] eqn:Hk; cbn [mbind result_bind]; [|done].
      intros [= <-]. by apply t_filter.
    + intros [= <-]. by apply t_stop.
  - destruct (possible_words self) as [|w ws] eqn:Hpw; intros [= <-].
    + by apply t_stumped.
    + by eapply t_next.
  - intros [= <-]. apply t_done.
Qed.

(** A property kept by every transition holds along [steps], and at the
    end of [run]. *)
Lemma steps_invariant (Inv : config -> Prop) :
  (forall c c', Inv c -> transition api_guess c c' -> Inv c') ->
  forall n c c', Inv c -> steps api_guess n c = Ok c' -> Inv c'.
Proof.
  intros Hkeep n. induction n as [|n IH]; intros c c' Hc; cbn [steps].
  - by intros [= <-].
  - destruct (step api_guess c) as [c1|e] eqn:Hs; cbn [mbind result_bind]; [|done].
    apply IH. eapply Hkeep; [done|]. by apply step_transition.
Qed.

Lemma run_invariant (Inv : config -> Prop) :
  (forall c c', Inv c -> transition api_guess c c' -> Inv c') ->
  forall fuel c c', Inv c -> run api_guess fuel c = Some (Ok c') ->
  Inv c' /\ c'.1.1 = L182.
Proof.
  intros Hkeep fuel c c' Hc [Hpc [n Hn]]%run_steps. split; [|done].
  by eapply steps_invariant.
Qed.

(** Only the filter can make a step raise. *)
Lemma step_progress pc self calls :
  (pc = L169 -> game_status self = PLAYING ->
   exists self', filter_possible_words self = Ok self') ->
  exists c', step api_guess (pc, self, calls) = Ok c'.
Proof.
  intros Hfilter. destruct pc; cbn [step].
  - destruct (_ && _); [|by eexists].
    destruct (make_guess api_guess self calls). by eexists.
  - case_bool_decide as Hs; cbn [negb]; [|by eexists].
    destruct (Hfilter eq_refl Hs) as [self' ->]. by eexists.
  - destruct (possible_words self); by eexists.
  - by eexists.
Qed.

Lemma fresh_feedback_kept c c' :
  fresh_feedback api_guess c -> transition api_guess c c' -> fresh_feedback api_guess c'.
Proof.
  intros _ Ht. destruct Ht; cbn; try done.
  intros _ _. by exists calls, fb.
Qed.

Lemma provenance_kept words c c' :
  provenance words c -> transition api_guess c c' -> provenance words c'.
Proof.
  intros Hp Ht.
  destruct Ht; destruct Hp as (Hpw & Hg & Hcalls); cbn in *;
    repeat split; try done; try (by constructor).
  - etrans; [|done]. by eapply keep_possible_sublist.
  - right. eapply elem_of_sublist; [|done]. rewrite H. by left.
Qed.

Lemma provenance_init words calls :
  calls = [] -> provenance words (L163, __init__ words, calls).
Proof. intros ->. split; [done|]. split; [by left | constructor]. Qed.

End Moves.

Section Invariants.

Variable api_guess : list string -> string -> response.

Lemma budget_kept c c' :
  budget c -> transition api_guess c c' -> budget c'.
Proof.
  intros Hb Ht. destruct Ht; cbn in *; unfold MAX_ATTEMPTS in *;
    repeat split; try tauto; try lia; try done.
  all: destruct (decide (attempt_number self < 6)%Z); first [tauto | lia].
Qed.

Lemma no_repeat_kept c c' :
  no_repeat c -> transition api_guess c c' -> no_repeat c'.
Proof.
  intros Hn Ht. destruct Ht; destruct Hn as [Hnd Hpc]; cbn in *.
  - done.
  - split; [done|]. intros h Hh Hin. by destruct (proj2 Hpc h Hh).
  - destruct Hpc as [Hg Hpw]. split; [by constructor|].
    intros h [->|Hh]%elem_of_cons Hin; [done|]. by destruct (Hpw h Hh).
  - destruct Hpc as [Hg Hpw]. split; [by constructor|].
    intros h [->|Hh]%elem_of_cons Hin; [done|]. by destruct (Hpw h Hh).
  - destruct Hpc as [Hg Hpw]. split; [by constructor|].
    intros h [->|Hh]%elem_of_cons Hin; [done|]. by destruct (Hpw h Hh).
  - destruct Hpc as [Hg Hpw]. split; [by constructor|].
    intros h [->|Hh]%elem_of_cons Hin; [done|]. by destruct (Hpw h Hh).
  - done.
  - split; [done|]. intros h Hh Hin.
    pose proof (keep_possible_kept _ _ _ _ H0) as Hkept.
    rewrite Forall_forall in Hkept. specialize (Hkept h Hin).
    apply keep_possible_sublist in H0.
    rewrite (Hpc h Hh (elem_of_sublist _ _ _ Hin H0)) in Hkept.
    unfold _is_word_still_possible in Hkept.
    by rewrite bool_decide_eq_true_2 in Hkept.
  - done.
  - split; [done|]. split; [|done].
    intros Hin. apply (Hpc w Hin). rewrite H. by left.
  - done.
Qed.




Lemma status_explained_kept c c' :
  status_explained api_guess c -> transition api_guess c c' ->
  status_explained api_guess c'.
Proof.
  intros He Ht. destruct Ht; destruct He as [Hpc Hs]; cbn in *.
  - split; [intros [|]; done | done].
  - split; [intros [|]; done | by right].
  - split; [intros [|]; done |]. exists calls. split; [done|]. by left.
  - split; [intros [|]; done |]. exists calls. split; [done|]. right. by exists fb.
  - split; [intros [|]; done |]. by exists calls.
  - split; [intros [|]; done |]. by rewrite H.
  - split; [intros [|]; done | done].
  - split; [done|]. by rewrite H.
  - split; [intros [|]; done | by left].
  - split; [intros; by apply Hpc; right |]. by rewrite (Hpc (or_intror eq_refl)).
  - split; [intros [|]; done | done].
Qed.

(** X1: a bot started on a word list whose words have five characters or
    more comes back from [start_game]: whatever the service does, the loop
    ends and no exception leaves it. *)
Theorem start_game_raises_nothing (words : list string) :
  Forall (λ w, WORD_LENGTH <= String.length w) words ->
  exists c, start_game api_guess (__init__ words) [] = Some (Ok c).
Proof.
  intros Hwords.
  set (Inv := λ c, provenance words c /\ fresh_feedback api_guess c).
  assert (Hsafe : forall fuel c r, Inv c -> run api_guess fuel c = Some r ->
                  exists c', r = Ok c').
  { induction fuel as [|fuel IH]; intros [[pc self] calls] r [Hp Hf].
    { destruct pc; cbn [run]; try done. intros [= <-]. by eexists. }
    assert (exists c', step api_guess (pc, self, calls) = Ok c') as [c' Hstep].
    { apply step_progress. intros -> Hs.
      destruct (Hf eq_refl Hs) as (rest & fb & _ & _ & Hfb & Hlen & _).
      destruct Hp as (Hsub & Hg & _).
      apply (filter_possible_words_returns self fb); try done.
      - rewrite Forall_forall in *. intros w Hw. apply Hwords.
        by eapply elem_of_sublist.
      - destruct Hg as [->|Hg]; [done|]. rewrite Forall_forall in Hwords. by apply Hwords.
      - by rewrite Hlen. }
    destruct pc; cbn [run]; try (intros [= <-]; by eexists).
    all: rewrite Hstep; apply IH; apply step_transition in Hstep.
    all: split; [by eapply provenance_kept | by eapply fresh_feedback_kept]. }
  destruct (start_game_terminates api_guess (__init__ words) []) as [r Hr].
  assert (Inv (L163, __init__ words, [])) as Hinit.
  { split; [by apply provenance_init | done]. }
  destruct (Hsafe _ _ _ Hinit Hr) as [c ->]. by exists c.
Qed.

(** X2: the bot submits at most [MAX_ATTEMPTS] guesses, and at the loop
    test [attempt_number] is the number of guesses submitted so far. *)
Theorem at_most_max_attempts_guesses (words : list string) (n : nat)
    (pc : point) (self : WordleBot) (calls : list string) :
  steps api_guess n (L163, __init__ words, []) = Ok (pc, self, calls) ->
  (Z.of_nat (length calls) <= MAX_ATTEMPTS)%Z /\
  (pc = L163 -> Z.of_nat (length calls) = attempt_number self).
Proof.
  intros Hn. eapply (steps_invariant api_guess budget) in Hn.
  - destruct pc; cbn in Hn; unfold MAX_ATTEMPTS in *; split; try done; try lia.
  - apply budget_kept.
  - cbn. unfold MAX_ATTEMPTS. lia.
Qed.

(** X3: the bot never submits the same word twice. *)
Theorem no_guess_twice (words : list string) (n : nat)
    (pc : point) (self : WordleBot) (calls : list string) :
  steps api_guess n (L163, __init__ words, []) = Ok (pc, self, calls) ->
  NoDup calls.
Proof.
  intros Hn. eapply (steps_invariant api_guess no_repeat) in Hn.
  - apply Hn.
  - apply no_repeat_kept.
  - cbn. split; [constructor|]. split; [apply not_elem_of_nil|]. by intros h ?%elem_of_nil.
Qed.

(** X4: the candidates are always a subsequence of the word list the bot
    was built with, and every submitted guess is the first guess "salet" or
    a word of that list. *)
Theorem guesses_come_from_word_list (words : list string) (n : nat)
    (pc : point) (self : WordleBot) (calls : list string) :
  steps api_guess n (L163, __init__ words, []) = Ok (pc, self, calls) ->
  possible_words self `sublist_of` words /\
  Forall (λ g, g = OPTIMAL_FIRST_GUESS \/ g ∈ words) calls.
Proof.
  intros Hn. eapply (steps_invariant api_guess (provenance words)) in Hn.
  - cbn in Hn. tauto.
  - apply provenance_kept.
  - by apply provenance_init.
Qed.


(** X6: when [start_game] ends with the status still [PLAYING], the
    attempts are used up: the counter is [MAX_ATTEMPTS] and as many guesses
    were submitted. *)
Theorem still_playing_means_out_of_attempts (words : list string)
    (pc : point) (self : WordleBot) (calls : list string) :
  start_game api_guess (__init__ words) [] = Some (Ok (pc, self, calls)) ->
  game_status self = PLAYING ->
  attempt_number self = MAX_ATTEMPTS /\ Z.of_nat (length calls) = MAX_ATTEMPTS.
Proof.
  intros Hrun Hs. apply (run_invariant api_guess budget) in Hrun as [Hb Hpc].
  - cbn in Hpc. subst pc. cbn in Hb. tauto.
  - apply budget_kept.
  - cbn. unfold MAX_ATTEMPTS. lia.
Qed.

(** X7: the status [WON] is only reached on a guess that the service
    scored all Green: that guess is the last one submitted and is still the
    current guess. *)
Theorem won_means_all_green (words : list string) (n : nat)
    (pc : point) (self : WordleBot) (calls : list string) :
  steps api_guess n (L163, __init__ words, []) = Ok (pc, self, calls) ->
  game_status self = WON ->
  exists rest, calls = current_guess self :: rest /\
    api_guess rest (current_guess self) = Feedback (Some "GGGGG") /\
    last_feedback self = Some "GGGGG".
Proof.
  intros Hn Hs. eapply (steps_invariant api_guess (status_explained api_guess)) in Hn.
  - destruct Hn as [_ He]. cbn in He. by rewrite Hs in He.
  - apply status_explained_kept.
  - done.
Qed.

(** X8: the status [ERROR] is only reached when the service failed on the
    last submitted guess, or answered it with no feedback or with one that
    has not [WORD_LENGTH] symbols. *)
Theorem error_means_bad_answer (words : list string) (n : nat)
    (pc : point) (self : WordleBot) (calls : list string) :
  steps api_guess n (L163, __init__ words, []) = Ok (pc, self, calls) ->
  game_status self = ERROR ->
  exists rest, calls = current_guess self :: rest /\
    (api_guess rest (current_guess self) = WordleAPIError \/
     exists fb, api_guess rest (current_guess self) = Feedback fb /\
       (fb = None \/ exists s, fb = Some s /\ String.length s <> WORD_LENGTH)).
Proof.
  intros Hn Hs. eapply (steps_invariant api_guess (status_explained api_guess)) in Hn.
  - destruct Hn as [_ He]. cbn in He. by rewrite Hs in He.
  - apply status_explained_kept.
  - done.
Qed.

(** X9: with a word list that holds no empty word, the status [LOST] means
    that no candidate is left. *)
Theorem lost_means_no_candidate (words : list string) (n : nat)
    (pc : point) (self : WordleBot) (calls : list string) :
  "" ∉ words ->
  steps api_guess n (L163, __init__ words, []) = Ok (pc, self, calls) ->
  game_status self = LOST ->
  possible_words self = [].
Proof.
  intros Hne Hn Hs.
  eapply (steps_invariant api_guess
            (λ c, provenance words c /\ status_explained api_guess c)) in Hn.
  - destruct Hn as [(_ & Hg & _) [_ He]]. cbn in He. rewrite Hs in He.
    destruct He as [He|He]; [done|]. rewrite He in Hg.
    destruct Hg as [Hg|Hg]; [done|]. by destruct Hne.
  - intros c c' [Hp He] Ht. split.
    + by eapply provenance_kept.
    + by eapply status_explained_kept.
  - split; [by apply provenance_init | done].
Qed.

End Invariants.

(** *** Concrete runs for the properties of the loop *)

Lemma start_game_raises_nothing_witness :
  exists c, start_game all_grey (__init__ word_list) [] = Some (Ok c).
Proof.
  apply (start_game_raises_nothing all_grey word_list).
  repeat constructor.
Defined.

Lemma at_most_max_attempts_guesses_witness :
  (Z.of_nat (length ["salet"]) <= MAX_ATTEMPTS)%Z /\
  (L163 = L163 ->
   Z.of_nat (length ["salet"])
   = attempt_number (next_attempt "dumbo" (set_words ["dumbo"; "humid"] round_one))).
Proof.
  apply (at_most_max_attempts_guesses all_grey word_list 3). vm_compute. reflexivity.
Defined.

Lemma no_guess_twice_witness : NoDup ["dumbo"; "salet"].
Proof.
  apply (no_guess_twice all_grey word_list 4 L169
           (next_attempt "dumbo" (set_words ["dumbo"; "humid"] round_one))).
  vm_compute. reflexivity.
Defined.

Lemma guesses_come_from_word_list_witness :
  possible_words (next_attempt "dumbo" (set_words ["dumbo"; "humid"] round_one))
    `sublist_of` word_list /\
  Forall (λ g, g = OPTIMAL_FIRST_GUESS \/ g ∈ word_list) ["salet"].
Proof.
  apply (guesses_come_from_word_list all_grey word_list 3 L163). vm_compute. reflexivity.
Defined.


Lemma still_playing_means_out_of_attempts_witness :
  attempt_number (mkBot ["nymph"; "waltz"] "nymph" 6 PLAYING (Some "XXXXX"))
  = MAX_ATTEMPTS /\
  Z.of_nat (length ["fjord"; "humid"; "pucks"; "dumbo"; "crane"; "salet"])
  = MAX_ATTEMPTS.
Proof.
  apply (still_playing_means_out_of_attempts unknown_symbols long_list L182).
  - vm_compute. reflexivity.
  - reflexivity.
Defined.

Lemma won_means_all_green_witness :
  exists rest,
    ["salet"] = current_guess (mkBot word_list "salet" 0 WON (Some "GGGGG")) :: rest /\
    all_green rest (current_guess (mkBot word_list "salet" 0 WON (Some "GGGGG")))
    = Feedback (Some "GGGGG") /\
    last_feedback (mkBot word_list "salet" 0 WON (Some "GGGGG")) = Some "GGGGG".
Proof.
  apply (won_means_all_green all_green word_list 1 L169).
  - vm_compute. reflexivity.
  - reflexivity.
Defined.

Lemma error_means_bad_answer_witness :
  exists rest,
    ["salet"] = current_guess (mkBot word_list "salet" 0 ERROR (Some "RRRR")) :: rest /\
    (four_symbols rest (current_guess (mkBot word_list "salet" 0 ERROR (Some "RRRR")))
     = WordleAPIError \/
     exists fb,
       four_symbols rest (current_guess (mkBot word_list "salet" 0 ERROR (Some "RRRR")))
       = Feedback fb /\
       (fb = None \/ exists s, fb = Some s /\ String.length s <> WORD_LENGTH)).
Proof.
  apply (error_means_bad_answer four_symbols word_list 1 L169).
  - vm_compute. reflexivity.
  - reflexivity.
Defined.

Lemma lost_means_no_candidate_witness :
  possible_words (mkBot [] "salet" 0 LOST (Some "RRRRR")) = [].
Proof.
  apply (lost_means_no_candidate all_grey ["salet"; "crane"] 4 L182 _ ["salet"]).
  - intros Hin. repeat (apply elem_of_cons in Hin as [Hin|Hin]; [discriminate|]).
    by apply elem_of_nil in Hin.
  - vm_compute. reflexivity.
  - reflexivity.
Defined.

(** ** Other ways to leave the loop *)

Section Outcomes.

Variable api_guess : list string -> string -> response.

(** X10: when the service scores the current guess all Green, the loop is
    left at once with the status [WON]; the counter is not raised, the
    candidates are not filtered and nothing more is submitted. *)
Theorem all_green_wins (self : WordleBot) (calls : list string) :
  game_status self = PLAYING ->
  (attempt_number self < MAX_ATTEMPTS)%Z ->
  current_guess self <> "" ->
  api_guess calls (current_guess self) = Feedback (Some "GGGGG") ->
  start_game api_guess self calls
  = Some (Ok (L182, set_status WON (set_feedback (Some "GGGGG") self),
              current_guess self :: calls)).
Proof.
  intros Hs Ha Hg Hapi. unfold start_game.
  destruct (rounds_left_pos self Ha) as [r ->].
  replace (3 * S r + 1) with (S (S (3 * r + 2))) by lia.
  rewrite loop_test_passes by done.
  unfold make_guess. rewrite bool_decide_eq_false_2 by done. rewrite Hapi.
  cbn. apply run_L182.
Qed.

(** X11: when the call to the service fails, the loop is left at once with
    the status [ERROR], the feedback of the round before is kept, and the
    failed guess is the last one submitted. *)
Theorem service_failure_is_error (self : WordleBot) (calls : list string) :
  game_status self = PLAYING ->
  (attempt_number self < MAX_ATTEMPTS)%Z ->
  current_guess self <> "" ->
  api_guess calls (current_guess self) = WordleAPIError ->
  start_game api_guess self calls
  = Some (Ok (L182, set_status ERROR self, current_guess self :: calls)).
Proof.
  intros Hs Ha Hg Hapi. unfold start_game.
  destruct (rounds_left_pos self Ha) as [r ->].
  replace (3 * S r + 1) with (S (S (3 * r + 2))) by lia.
  rewrite loop_test_passes by done.
  unfold make_guess. rewrite bool_decide_eq_false_2 by done. rewrite Hapi.
  cbn. apply run_L182.
Qed.

(** X12: a bot whose current guess is the empty string does not call the
    service: the loop is left with the status [LOST] and the log of
    submitted guesses is unchanged. *)
Theorem empty_guess_is_lost_without_call (self : WordleBot) (calls : list string) :
  game_status self = PLAYING ->
  (attempt_number self < MAX_ATTEMPTS)%Z ->
  current_guess self = "" ->
  start_game api_guess self calls = Some (Ok (L182, set_status LOST self, calls)).
Proof.
  intros Hs Ha Hg. unfold start_game.
  destruct (rounds_left_pos self Ha) as [r ->].
  replace (3 * S r + 1) with (S (S (3 * r + 2))) by lia.
  rewrite loop_test_passes by done.
  unfold make_guess. rewrite bool_decide_eq_true_2 by done.
  cbn. apply run_L182.
Qed.

End Outcomes.

Lemma all_green_wins_witness :
  start_game all_green (__init__ word_list) []
  = Some (Ok (L182, set_status WON (set_feedback (Some "GGGGG") (__init__ word_list)),
              current_guess (__init__ word_list) :: [])).
Proof.
  apply (all_green_wins all_green (__init__ word_list) []);
    (reflexivity || discriminate).
Defined.

Lemma service_failure_is_error_witness :
  start_game unreachable (__init__ word_list) []
  = Some (Ok (L182, set_status ERROR (__init__ word_list),
              current_guess (__init__ word_list) :: [])).
Proof.
  apply (service_failure_is_error unreachable (__init__ word_list) []);
    (reflexivity || discriminate).
Defined.

Lemma empty_guess_is_lost_without_call_witness :
  start_game all_grey (mkBot [] "" 2 PLAYING (Some "RRRRR")) ["dumbo"; "salet"]
  = Some (Ok (L182, set_status LOST (mkBot [] "" 2 PLAYING (Some "RRRRR")),
              ["dumbo"; "salet"])).
Proof.
  apply (empty_guess_is_lost_without_call all_grey
           (mkBot [] "" 2 PLAYING (Some "RRRRR")) ["dumbo"; "salet"]);
    reflexivity.
Defined.

(** * Further properties of the consistency check *)

Lemma range_split i n :
  i < n -> range n = seq 0 i ++ i :: seq (S i) (n - S i).
Proof.
  intros Hi. unfold range.
  change (i :: seq (S i) (n - S i)) with (seq (0 + i) (S (n - S i))).
  rewrite <- seq_app. f_equal. lia.
Qed.

Lemma for_each_continue_invariant {S} (Inv : S -> Prop) idx body (s s' : S) :
  for_each idx body s = Ok (Continue s') ->
  Inv s ->
  (forall j t t', j ∈ idx -> Inv t -> body j t = Ok (Continue t') -> Inv t') ->
  Inv s'.
Proof.
  revert s. induction idx as [|j idx IH]; intros s; cbn [for_each].
  - by intros [= <-].
  - destruct (body j s) as [[t|b]|e] eqn:Hj; try done.
    intros Hrest Hs Hkeep. apply (IH t); [done| |].
    + eapply (Hkeep j s); [by left|done..].
    + intros k u u' Hk. apply Hkeep. by right.
Qed.

Lemma for_each_continue_at {S} idx1 i idx2 body (s s' : S) :
  for_each (idx1 ++ i :: idx2) body s = Ok (Continue s') ->
  exists s1 s2, for_each idx1 body s = Ok (Continue s1) /\
                body i s1 = Ok (Continue s2).
Proof.
  rewrite for_each_app. destruct (for_each idx1 body s) as [[s1|b]|e]; try done.
  cbn [for_each]. destruct (body i s1) as [[s2|b]|e] eqn:Hi; try done.
  intros _. by exists s1, s2.
Qed.

(** A pass returns nothing but [False] and raises nothing but
    [IndexError]. *)
Lemma for_each_outcome {S} (P : result (flow S) -> Prop) idx body (s : S) :
  (forall j t, j ∈ idx -> P (body j t) \/ exists t', body j t = Ok (Continue t')) ->
  P (for_each idx body s) \/ exists s', for_each idx body s = Ok (Continue s').
Proof.
  revert s. induction idx as [|j idx IH]; intros s Hbody; cbn [for_each].
  { right. by eexists. }
  destruct (Hbody j s ltac:(left)) as [HP|[t' Ht]].
  - destruct (body j s) as [[t|b]|e] eqn:Hj; try (by left).
    apply IH. intros k u Hk. apply Hbody. by right.
  - rewrite Ht. apply IH. intros k u Hk. apply Hbody. by right.
Qed.

Lemma subscript_outcome {A} (l : list A) i :
  subscript l i = Raise IndexError \/ exists x, subscript l i = Ok x /\ l !! i = Some x.
Proof. unfold subscript. destruct (l !! i); [right; by eexists | by left]. Qed.

Lemma green_body_outcome feedback i s :
  rejection (green_body feedback i s) \/
  exists s', green_body feedback i s = Ok (Continue s').
Proof.
  destruct s as [wc gc]. unfold green_body, rejection, char_at.
  destruct (subscript_outcome (list_ascii_of_string feedback) i) as [->|(f & -> & _)];
    cbn [mbind result_bind]; [by left; right|].
  destruct (is_char f "G"); [|right; by eexists].
  destruct (subscript_outcome wc i) as [->|(w & -> & _)];
    cbn [mbind result_bind]; [by left; right|].
  destruct (subscript_outcome gc i) as [->|(g & -> & _)];
    cbn [mbind result_bind]; [by left; right|].
  destruct (negb _); [by left; left | right; by eexists].
Qed.

Lemma yellow_body_outcome feedback gc i wc :
  rejection (yellow_body feedback gc i wc) \/
  exists wc', yellow_body feedback gc i wc = Ok (Continue wc').
Proof.
  unfold yellow_body, rejection, char_at.
  destruct (subscript_outcome (list_ascii_of_string feedback) i) as [->|(f & -> & _)];
    cbn [mbind result_bind]; [by left; right|].
  destruct (is_char f "Y"); [|right; by eexists].
  destruct (subscript_outcome wc i) as [->|(w & -> & _)];
    cbn [mbind result_bind]; [by left; right|].
  destruct (subscript_outcome gc i) as [->|(g & -> & _)];
    cbn [mbind result_bind]; [by left; right|].
  destruct (bool_decide (w = g)); [by left; left|].
  destruct (contains g wc) eqn:Hin; cbn [negb]; [|by left; left].
  destruct (index_of_contained wc g Hin) as (k & -> & _). right. by eexists.
Qed.

Lemma grey_body_outcome feedback gc wc i u :
  rejection (grey_body feedback gc wc i u) \/
  exists u', grey_body feedback gc wc i u = Ok (Continue u').
Proof.
  unfold grey_body, rejection, char_at.
  destruct (subscript_outcome (list_ascii_of_string feedback) i) as [->|(f & -> & _)];
    cbn [mbind result_bind]; [by left; right|].
  destruct (is_char f "R"); [|right; by eexists].
  destruct (subscript_outcome gc i) as [->|(g & -> & _)];
    cbn [mbind result_bind]; [by left; right|].
  destruct (contains g wc); [by left; left | right; by eexists].
Qed.

(** A word is kept only if the three passes ran to their ends. *)
Lemma kept_passes word guess feedback :
  _is_word_still_possible word guess (Some feedback) = Ok true ->
  word <> guess /\
  exists wc gc wc',
    for_each (range WORD_LENGTH) (green_body feedback) (chars word, chars guess)
    = Ok (Continue (wc, gc)) /\
    for_each (range WORD_LENGTH) (yellow_body feedback gc) wc = Ok (Continue wc') /\
    for_each (range WORD_LENGTH) (grey_body feedback gc wc') tt = Ok (Continue tt).
Proof.
  unfold _is_word_still_possible. case_bool_decide as Hne; [done|].
  intros Hkept. split; [done|].
  destruct (for_each_outcome rejection (range WORD_LENGTH) (green_body feedback)
    (chars word, chars guess)) as [[H1|H1]|[[wc gc] H1]];
    [intros; apply green_body_outcome|..]; rewrite H1 in Hkept; try done.
  cbn [mbind result_bind] in Hkept.
  destruct (for_each_outcome rejection (range WORD_LENGTH) (yellow_body feedback gc) wc)
    as [[H2|H2]|[wc' H2]];
    [intros; apply yellow_body_outcome|..]; rewrite H2 in Hkept; try done.
  cbn [mbind result_bind] in Hkept.
  destruct (for_each_outcome rejection (range WORD_LENGTH)
    (grey_body feedback gc wc') tt) as [[H3|H3]|[[] H3]];
    [intros; apply grey_body_outcome|..]; rewrite H3 in Hkept; try done.
  by exists wc, gc, wc'.
Qed.

(** The check answers with a boolean or with [IndexError], nothing else,
    when there is a feedback. *)
Lemma is_word_still_possible_outcome word guess feedback :
  (exists b, _is_word_still_possible word guess (Some feedback) = Ok b) \/
  _is_word_still_possible word guess (Some feedback) = Raise IndexError.
Proof.
  unfold _is_word_still_possible. case_bool_decide as Hne; [left; by eexists|].
  destruct (for_each_outcome rejection (range WORD_LENGTH) (green_body feedback)
    (chars word, chars guess)) as [[H1|H1]|[[wc gc] H1]];
    [intros; apply green_body_outcome|..]; rewrite H1; cbn [mbind result_bind];
    [left; by eexists | by right |].
  destruct (for_each_outcome rejection (range WORD_LENGTH) (yellow_body feedback gc) wc)
    as [[H2|H2]|[wc' H2]];
    [intros; apply yellow_body_outcome|..]; rewrite H2; cbn [mbind result_bind];
    [left; by eexists | by right |].
  destruct (for_each_outcome rejection (range WORD_LENGTH)
    (grey_body feedback gc wc') tt) as [[H3|H3]|[u H3]];
    [intros; apply grey_body_outcome|..]; rewrite H3; cbn [mbind result_bind];
    [left; by eexists | by right | left; by eexists].
Qed.

Lemma green_body_slot feedback i j wc gc wc' gc' :
  j <> i ->
  green_body feedback j (wc, gc) = Ok (Continue (wc', gc')) ->
  wc' !! i = wc !! i /\ gc' !! i = gc !! i.
Proof.
  intros Hji. unfold green_body.
  destruct (char_at feedback j) as [f|]; cbn [mbind result_bind]; [|done].
  destruct (is_char f "G"); [|by intros [= <- <-]].
  destruct (subscript wc j) as [w|]; cbn [mbind result_bind]; [|done].
  destruct (subscript gc j) as [g|]; cbn [mbind result_bind]; [|done].
  destruct (negb _); [done|]. intros [= <- <-].
  by rewrite !list_lookup_insert_ne.
Qed.

(** X13: a word that is kept agrees with the guess on every Green
    position. *)
Theorem kept_word_matches_green (word guess feedback : string) (i : nat) :
  _is_word_still_possible word guess (Some feedback) = Ok true ->
  i < WORD_LENGTH ->
  char_at feedback i = Ok "G"%char ->
  exists c, char_at word i = Ok c /\ char_at guess i = Ok c.
Proof.
  intros (_ & wc & gc & _ & Hgreen & _)%kept_passes Hi HG.
  rewrite (range_split i) in Hgreen by done.
  apply for_each_continue_at in Hgreen as ([wc1 gc1] & s2 & Hpre & Hbody).
  assert (wc1 !! i = chars word !! i /\ gc1 !! i = chars guess !! i) as [Hw Hg].
  { apply (for_each_continue_invariant
             (λ s, s.1 !! i = chars word !! i /\ s.2 !! i = chars guess !! i)
             _ _ _ _ Hpre); [done|].
    intros j [wc2 gc2] [wc3 gc3] Hj%elem_of_seq [Hw Hg] Hstep.
    apply green_body_slot with (i := i) in Hstep as [Hw' Hg']; [|lia].
    cbn [fst snd] in *. split; congruence. }
  unfold green_body in Hbody. rewrite HG in Hbody. cbn [mbind result_bind] in Hbody.
  replace (is_char "G" "G") with true in Hbody by done.
  unfold subscript in Hbody. rewrite Hw, Hg in Hbody.
  destruct (chars word !! i) as [w|] eqn:Hcw; cbn [mbind result_bind] in Hbody; [|done].
  destruct (chars guess !! i) as [g|] eqn:Hcg; cbn [mbind result_bind] in Hbody; [|done].
  case_bool_decide as Hwg; [|done]. subst g.
  destruct w as [c|].
  - exists c. by rewrite !char_at_chars.
  - unfold chars in Hcw. rewrite list_lookup_fmap in Hcw.
    by destruct (list_ascii_of_string word !! i).
Qed.

Lemma kept_word_matches_green_witness :
  exists c, char_at "steal" 2 = Ok c /\ char_at "steel" 2 = Ok c.
Proof.
  apply (kept_word_matches_green "steal" "steel" "GGGRG" 2).
  - vm_compute. reflexivity.
  - unfold WORD_LENGTH. lia.
  - reflexivity.
Defined.

Lemma from_word_consume word wc k : from_word word wc -> from_word word (<[k := None]> wc).
Proof.
  intros Hw j x [(_ & Heq & _)|(_ & Hj)]%list_lookup_insert_Some; [done|].
  by apply Hw.
Qed.

Lemma green_body_from_word word feedback j wc gc wc' gc' :
  from_word word wc ->
  green_body feedback j (wc, gc) = Ok (Continue (wc', gc')) ->
  from_word word wc'.
Proof.
  intros Hw. unfold green_body.
  destruct (char_at feedback j) as [f|]; cbn [mbind result_bind]; [|done].
  destruct (is_char f "G"); [|by intros [= <- <-]].
  destruct (subscript wc j) as [w|]; cbn [mbind result_bind]; [|done].
  destruct (subscript gc j) as [g|]; cbn [mbind result_bind]; [|done].
  destruct (negb _); [done|]. intros [= <- <-]. by apply from_word_consume.
Qed.

Lemma yellow_body_from_word word feedback gc j wc wc' :
  from_word word wc ->
  yellow_body feedback gc j wc = Ok (Continue wc') ->
  from_word word wc'.
Proof.
  intros Hw. unfold yellow_body.
  destruct (char_at feedback j) as [f|]; cbn [mbind result_bind]; [|done].
  destruct (is_char f "Y"); [|by intros [= <-]].
  destruct (subscript wc j) as [w|]; cbn [mbind result_bind]; [|done].
  destruct (subscript gc j) as [g|]; cbn [mbind result_bind]; [|done].
  destruct (bool_decide (w = g)); [done|].
  destruct (negb _); [done|].
  destruct (index wc g) as [k|]; cbn [mbind result_bind]; [|done].
  intros [= <-]. by apply from_word_consume.
Qed.

(** X14: a word that is kept holds the guess letter of every Yellow
    position, at some other position. *)
Theorem kept_word_holds_yellow_letter (word guess feedback : string) (i : nat) :
  _is_word_still_possible word guess (Some feedback) = Ok true ->
  i < WORD_LENGTH ->
  char_at feedback i = Ok "Y"%char ->
  exists c j, char_at guess i = Ok c /\ char_at word j = Ok c /\ j <> i.
Proof.
  intros (_ & wc & gc & wc' & Hgreen & Hyellow & _)%kept_passes Hi HY.
  (* the green pass leaves slot [i] of the guess alone *)
  assert (from_word word wc /\ gc !! i = chars guess !! i) as [Hfrom Hg].
  { apply (for_each_continue_invariant
             (λ s, from_word word s.1 /\ s.2 !! i = chars guess !! i)
             _ _ _ _ Hgreen).
    - split; [|done]. intros j x Hj. cbn [fst] in Hj. by apply char_at_chars.
    - intros j [wc2 gc2] [wc3 gc3] _ [Hw2 Hg2] Hstep. cbn [fst snd] in *. split.
      + by eapply green_body_from_word.
      + destruct (decide (j = i)) as [->|Hji].
        * unfold green_body in Hstep. rewrite HY in Hstep.
          cbn [mbind result_bind] in Hstep.
          replace (is_char "Y" "G") with false in Hstep by done. congruence.
        * apply green_body_slot with (i := i) in Hstep as [_ Hg3]; [|done].
          congruence. }
  rewrite (range_split i) in Hyellow by done.
  apply for_each_continue_at in Hyellow as (wc1 & wc2 & Hpre & Hbody).
  assert (from_word word wc1) as Hfrom1.
  { apply (for_each_continue_invariant (from_word word) _ _ _ _ Hpre); [done|].
    intros j t t' _ Ht Hstep. by eapply yellow_body_from_word. }
  unfold yellow_body in Hbody. rewrite HY in Hbody. cbn [mbind result_bind] in Hbody.
  replace (is_char "Y" "Y") with true in Hbody by done.
  destruct (subscript_outcome wc1 i) as [Hw|(w & Hw & Hwi)]; rewrite Hw in Hbody;
    cbn [mbind result_bind] in Hbody; [done|].
  unfold subscript in Hbody at 1. rewrite Hg in Hbody.
  destruct (chars guess !! i) as [g|] eqn:Hcg; cbn [mbind result_bind] in Hbody; [|done].
  case_bool_decide as Hwg; [done|].
  destruct (contains g wc1) eqn:Hin; cbn [negb] in Hbody; [|done].
  apply bool_decide_eq_true in Hin. apply list_elem_of_lookup in Hin as [j Hj].
  destruct g as [c|].
  2:{ unfold chars in Hcg. rewrite list_lookup_fmap in Hcg.
      by destruct (list_ascii_of_string guess !! i). }
  exists c, j. split; [by apply char_at_chars|]. split; [by apply Hfrom1|].
  intros ->. congruence.
Qed.

Lemma kept_word_holds_yellow_letter_witness :
  exists c j, char_at "llama" 0 = Ok c /\ char_at "atoll" j = Ok c /\ j <> 0.
Proof.
  apply (kept_word_holds_yellow_letter "atoll" "llama" "YYYRR" 0).
  - vm_compute. reflexivity.
  - unfold WORD_LENGTH. lia.
  - reflexivity.
Defined.

(** X15: with a feedback string, the check answers with a boolean or raises
    [IndexError]; whatever the lengths of its arguments, [index] at line 119
    never raises [ValueError]. *)
Theorem only_IndexError_is_raised (word guess feedback : string) (e : exn) :
  _is_word_still_possible word guess (Some feedback) = Raise e -> e = IndexError.
Proof.
  destruct (is_word_still_possible_outcome word guess feedback) as [[b ->]| ->];
    congruence.
Qed.

Lemma only_IndexError_is_raised_witness : IndexError = IndexError.
Proof.
  apply (only_IndexError_is_raised "stea" "stee" "GGGRG"). vm_compute. reflexivity.
Defined.

Lemma char_at_beyond s i : String.length s <= i -> char_at s i = Raise IndexError.
Proof.
  intros Hi. unfold char_at, subscript.
  rewrite lookup_ge_None_2; [done|]. by rewrite length_list_ascii.
Qed.

(** X16: a feedback of fewer than [WORD_LENGTH] symbols lets no word
    through: the check returns [False] or raises [IndexError]. *)
Theorem short_feedback_keeps_nothing (word guess feedback : string) :
  String.length feedback < WORD_LENGTH ->
  _is_word_still_possible word guess (Some feedback) = Ok false \/
  _is_word_still_possible word guess (Some feedback) = Raise IndexError.
Proof.
  intros Hshort.
  destruct (is_word_still_possible_outcome word guess feedback) as [[[] Hb]|Hr];
    [|by left|by right].
  apply kept_passes in Hb as (_ & wc & gc & _ & Hgreen & _).
  rewrite (range_split (String.length feedback)) in Hgreen by done.
  apply for_each_continue_at in Hgreen as ([wc1 gc1] & s2 & _ & Hbody).
  unfold green_body in Hbody. by rewrite char_at_beyond in Hbody.
Qed.

Lemma short_feedback_keeps_nothing_witness :
  _is_word_still_possible "crane" "salet" (Some "RRRR") = Ok false \/
  _is_word_still_possible "crane" "salet" (Some "RRRR") = Raise IndexError.
Proof.
  apply (short_feedback_keeps_nothing "crane" "salet" "RRRR"). unfold WORD_LENGTH.
  cbn. lia.
Defined.

Lemma for_each_skip {S} idx body (s : S) :
  (forall i, i ∈ idx -> body i s = Ok (Continue s)) ->
  for_each idx body s = Ok (Continue s).
Proof.
  induction idx as [|i idx IH]; intros Hbody; cbn [for_each]; [done|].
  rewrite Hbody by left. apply IH. intros j Hj. apply Hbody. by right.
Qed.

Lemma is_char_false f c : String f EmptyString <> c -> is_char f c = false.
Proof. intros. unfold is_char. by rewrite bool_decide_eq_false_2. Qed.

(** X17: the symbols of the feedback are not validated: when none of the
    first [WORD_LENGTH] symbols is G, Y or R, every word other than the guess
    is kept, whatever the lengths of the word and of the guess. *)
Theorem unknown_symbols_keep_every_word (word guess feedback : string) :
  word <> guess ->
  (forall i, i < WORD_LENGTH ->
     exists f, char_at feedback i = Ok f /\
               f <> "G"%char /\ f <> "Y"%char /\ f <> "R"%char) ->
  _is_word_still_possible word guess (Some feedback) = Ok true.
Proof.
  intros Hne Hsym. unfold _is_word_still_possible.
  rewrite bool_decide_eq_false_2 by done.
  rewrite for_each_skip; cbn [mbind result_bind].
  2:{ intros i Hi%elem_of_range. destruct (Hsym i Hi) as (f & Hf & HG & _).
      unfold green_body. rewrite Hf. cbn [mbind result_bind].
      rewrite is_char_false; [done | congruence]. }
  rewrite for_each_skip; cbn [mbind result_bind].
  2:{ intros i Hi%elem_of_range. destruct (Hsym i Hi) as (f & Hf & _ & HY & _).
      unfold yellow_body. rewrite Hf. cbn [mbind result_bind].
      rewrite is_char_false; [done | congruence]. }
  rewrite for_each_skip; cbn [mbind result_bind]; [done|].
  intros i Hi%elem_of_range. destruct (Hsym i Hi) as (f & Hf & _ & _ & HR).
  unfold grey_body. rewrite Hf. cbn [mbind result_bind].
  rewrite is_char_false; [done | congruence].
Qed.

Lemma unknown_symbols_keep_every_word_witness :
  _is_word_still_possible "crane" "salet" (Some "XXXXX") = Ok true.
Proof.
  apply (unknown_symbols_keep_every_word "crane" "salet" "XXXXX"); [discriminate|].
  intros i Hi. exists "X"%char.
  do 5 (destruct i as [|i]; [by repeat split|]). unfold WORD_LENGTH in Hi. lia.
Defined.

(** * Further properties of the filter *)

(** When no check raises, the comprehension of lines 131-134 is the filter
    by "the check returns [True]". *)
Lemma keep_possible_filter words guess feedback kept :
  keep_possible words guess feedback = Ok kept ->
  kept = filter (λ w, _is_word_still_possible w guess feedback = Ok true) words.
Proof.
  revert kept. induction words as [|word rest IH]; intros kept.
  - by intros [= <-].
  - intros (b & kept' & Hb & Hrest & ->)%keep_possible_cons.
    rewrite filter_cons. rewrite <- (IH _ Hrest).
    destruct b; case_decide; congruence.
Qed.

(** X18: the order of two rounds does not matter: filtering by one guess
    and its feedback and then by another leaves the same words, in the same
    order, as filtering the other way round. *)
Theorem filter_order_irrelevant (words : list string)
    (guess1 guess2 : string) (feedback1 feedback2 : option string)
    (kept1 kept12 kept2 kept21 : list string) :
  keep_possible words guess1 feedback1 = Ok kept1 ->
  keep_possible kept1 guess2 feedback2 = Ok kept12 ->
  keep_possible words guess2 feedback2 = Ok kept2 ->
  keep_possible kept2 guess1 feedback1 = Ok kept21 ->
  kept12 = kept21.
Proof.
  intros -> %keep_possible_filter -> %keep_possible_filter
         -> %keep_possible_filter -> %keep_possible_filter.
  rewrite !list_filter_filter. apply list_filter_iff. tauto.
Qed.

Lemma filter_order_irrelevant_witness : ["humid"] = ["humid"].
Proof.
  apply (filter_order_irrelevant word_list "salet" "unfit" (Some "RRRRR") (Some "YRRGR")
           ["dumbo"; "humid"] ["humid"] ["humid"] ["humid"]);
    vm_compute; reflexivity.
Defined.

(** X19: half of the intended contract holds: when the feedback is the
    reference score of the guess against a word (other than the guess), the
    check keeps that word. The bot never drops the secret of an honest
    service. *)
Theorem own_score_keeps_word (word guess feedback : string) :
  String.length word = WORD_LENGTH ->
  String.length guess = WORD_LENGTH ->
  word <> guess ->
  reference_score word guess = feedback ->
  _is_word_still_possible word guess (Some feedback) = Ok true.
Proof. intros Hw Hg Hne <-. by apply secret_is_kept. Qed.

Lemma own_score_keeps_word_witness :
  _is_word_still_possible "atoll" "llama" (Some "YYYRR") = Ok true.
Proof.
  apply (own_score_keeps_word "atoll" "llama" "YYYRR");
    (reflexivity || discriminate).
Defined.

(** * The bot against an honest service *)

Lemma length_string_of_list l : String.length (string_of_list_ascii l) = length l.
Proof. induction l as [|a l IH]; cbn; [done | by rewrite IH]. Qed.

Lemma length_reference_score secret guess :
  String.length secret = String.length guess ->
  String.length (reference_score secret guess) = String.length secret.
Proof.
  intros Hlen. unfold reference_score.
  rewrite length_string_of_list, length_assign; by rewrite !length_list_ascii.
Qed.

Lemma assign_all_green secret guess pool :
  length secret = length guess ->
  Forall (λ f, f = "G"%char) (assign secret guess pool) -> secret = guess.
Proof.
  revert guess pool. induction secret as [|s secret IH]; intros [|g guess] pool;
    cbn [assign length]; try done.
  intros [= Hlen]. repeat case_bool_decide; intros Hall;
    apply Forall_cons in Hall as [Hhd Htl]; try done.
  subst. f_equal. by eapply IH.
Qed.

Lemma assign_self secret pool :
  assign secret secret pool = replicate (length secret) "G"%char.
Proof.
  induction secret as [|s secret IH]; cbn [assign length replicate]; [done|].
  rewrite bool_decide_eq_true_2 by done. by rewrite IH.
Qed.

Lemma list_ascii_inj s1 s2 :
  list_ascii_of_string s1 = list_ascii_of_string s2 -> s1 = s2.
Proof.
  intros H%(f_equal string_of_list_ascii).
  by rewrite !string_of_list_ascii_of_string in H.
Qed.

(** The reference score is all Green on the secret, and only there. *)
Lemma reference_score_all_green secret guess :
  String.length secret = WORD_LENGTH ->
  String.length guess = WORD_LENGTH ->
  reference_score secret guess = "GGGGG" <-> secret = guess.
Proof.
  intros Hs Hg. unfold reference_score. split.
  - intros H%(f_equal list_ascii_of_string).
    rewrite list_ascii_of_string_of_list_ascii in H.
    apply list_ascii_inj. eapply assign_all_green.
    + rewrite !length_list_ascii. congruence.
    + rewrite H. by repeat constructor.
  - intros <-. rewrite assign_self, length_list_ascii, Hs. done.
Qed.

Lemma keep_possible_elem words guess feedback kept w :
  keep_possible words guess feedback = Ok kept ->
  w ∈ words -> _is_word_still_possible w guess feedback = Ok true -> w ∈ kept.
Proof.
  intros -> %keep_possible_filter Hin Hw. by apply list_elem_of_filter.
Qed.

Section Honest.

Variable api_guess : list string -> string -> response.
Variable secret : string.
Variable words : list string.

Hypothesis honest :
  forall calls guess, api_guess calls guess = Feedback (Some (reference_score secret guess)).
Hypothesis secret_listed : secret ∈ words.
Hypothesis five_letters : Forall (λ w, String.length w = WORD_LENGTH) words.

Lemma listed_length w : w ∈ words -> String.length w = WORD_LENGTH.
Proof. intros Hw. rewrite Forall_forall in five_letters. by apply five_letters. Qed.

Lemma guess_length c :
  provenance words c -> String.length (current_guess c.1.2) = WORD_LENGTH.
Proof.
  destruct c as [[pc self] calls]. cbn. intros (_ & [Hg|Hg] & _).
  - by rewrite Hg.
  - by apply listed_length.
Qed.

Lemma on_track_kept c c' :
  provenance words c -> on_track secret c ->
  transition api_guess c c' -> on_track secret c'.
Proof.
  intros Hp Ho Ht. pose proof (guess_length c Hp) as Hlen.
  pose proof (listed_length secret secret_listed) as Hsecret.
  destruct Ht; cbn in *.
  - right. tauto.
  - rewrite H1 in Hlen. done.
  - by rewrite honest in H2.
  - rewrite honest in H2. injection H2 as <-.
    destruct H3 as [|(s & [= <-] & Hs)]; [done|].
    rewrite length_reference_score in Hs; congruence.
  - rewrite honest in H2. injection H2 as Hwin. left. split; [done|].
    symmetry. by apply reference_score_all_green.
  - rewrite honest in H2. injection H2 as <-. right.
    split; [done|]. split; [tauto|]. split; [|done].
    intros Heq. apply H4. by apply reference_score_all_green.
  - destruct Ho as [Ho|[Ho _]]; [by left | congruence].
  - destruct Ho as [[Ho _]|(_ & Hin & Hne & Hfb)]; [congruence|].
    split; [done|]. eapply keep_possible_elem; [done..|].
    rewrite Hfb. by apply secret_is_kept.
  - destruct Ho as [_ Hin]. rewrite H in Hin. by apply elem_of_nil in Hin.
  - done.
  - done.
Qed.

(** X20: against a service that scores every guess by the rules against a
    secret of the word list, a bot on a list of five-letter words is never
    stumped and never in error: [start_game] ends either with [WON] and the
    secret as its current guess, or still [PLAYING] after [MAX_ATTEMPTS]
    attempts with the secret among the candidates. *)
Theorem honest_game_outcome (pc : point) (self : WordleBot) (calls : list string) :
  start_game api_guess (__init__ words) [] = Some (Ok (pc, self, calls)) ->
  (game_status self = WON /\ current_guess self = secret) \/
  (game_status self = PLAYING /\ attempt_number self = MAX_ATTEMPTS /\
   secret ∈ possible_words self).
Proof.
  intros Hrun.
  apply (run_invariant api_guess
           (λ c, provenance words c /\ on_track secret c /\ budget c)) in Hrun
    as [(_ & Ho & Hb) Hpc].
  - cbn in Hpc. subst pc. cbn in Ho, Hb.
    destruct Ho as [Ho|[Hs Hin]]; [by left|]. right. tauto.
  - intros c c' (Hp & Ho & Hb) Ht. split; [|split].
    + by eapply provenance_kept.
    + by eapply on_track_kept.
    + by eapply budget_kept.
  - split; [by apply provenance_init|]. split; [done|].
    cbn. unfold MAX_ATTEMPTS. lia.
Qed.

End Honest.

Lemma honest_game_outcome_witness :
  (game_status (mkBot ["humid"] "humid" 2 WON (Some "GGGGG")) = WON /\
   current_guess (mkBot ["humid"] "humid" 2 WON (Some "GGGGG")) = "humid") \/
  (game_status (mkBot ["humid"] "humid" 2 WON (Some "GGGGG")) = PLAYING /\
   attempt_number (mkBot ["humid"] "humid" 2 WON (Some "GGGGG")) = MAX_ATTEMPTS /\
   "humid" ∈ possible_words (mkBot ["humid"] "humid" 2 WON (Some "GGGGG"))).
Proof.
  apply (honest_game_outcome scores_humid "humid" word_list) with (pc := L182)
    (calls := ["humid"; "dumbo"; "salet"]).
  - reflexivity.
  - unfold word_list. do 4 right. left.
  - repeat constructor.
  - vm_compute. reflexivity.
Defined.

(** * The word list *)

Lemma length_ascii_lower s : String.length (ascii_lower s) = String.length s.
Proof. induction s as [|a s IH]; cbn; [done | by rewrite IH]. Qed.

(** X21: the length of a line is tested on the stripped line, before
    [lower()]: provided that [lower()] keeps the length of a string, every
    word of the loaded list has [WORD_LENGTH] characters, and a missing file
    gives the empty list. *)
Theorem loaded_words_have_word_length (strip lower : string -> string)
    (file : option (list string)) :
  (forall s, String.length (lower s) = String.length s) ->
  Forall (λ w, String.length w = WORD_LENGTH) (_load_word_list strip lower file) /\
  (file = None -> _load_word_list strip lower file = []).
Proof.
  intros Hlower. split; [|by intros ->].
  destruct file as [lines|]; cbn [_load_word_list]; [|constructor].
  apply Forall_fmap, Forall_forall.
  intros w [Hw _]%list_elem_of_filter. cbn. by rewrite Hlower.
Qed.

Lemma loaded_words_have_word_length_witness :
  Forall (λ w, String.length w = WORD_LENGTH)
    (_load_word_list ascii_strip ascii_lower (Some word_file)) /\
  (Some word_file = None ->
   _load_word_list ascii_strip ascii_lower (Some word_file) = []).
Proof.
  apply (loaded_words_have_word_length ascii_strip ascii_lower (Some word_file)).
  apply length_ascii_lower.
Defined.

(** *** Concrete inputs for the two properties stated with the check *)

Lemma yellow_match_rejected_witness :
  _is_word_still_possible "hello" "jelly" (Some "RYRRR") = Ok false.
Proof.
  apply (yellow_match_rejected "hello" "jelly" "RYRRR" 1 "e"%char);
    try (unfold WORD_LENGTH; cbn; lia); try reflexivity.
  intros j Hj. assert (j = 0) as -> by lia. discriminate.
Defined.

Lemma guess_not_kept_witness :
  current_guess round_one ∉ possible_words (set_words ["dumbo"; "humid"] round_one).
Proof.
  apply (guess_not_kept round_one). vm_compute. reflexivity.
Defined.
